(** * Tweet classification pipeline: text encoding, vocabulary, dataset,
      classifier modes, training loop and inference

    A shallow embedding of the notebook [364_final_proj_code.ipynb].

    Conventions of the embedding:
    - a Python [str] is a [string]; a character is a code point of the
      Latin-1 block (0..255), on which [str.lower] and the regular
      expression class [\w] are given by the Unicode tables;
    - a Python [int] is a [Z]; a Python [float] is a binary64 [float];
    - the vocabulary, a [dict] used through lookup, membership, [len] and
      assignment, is a [gmap string Z]; the dictionary of word counts is
      iterated, so it is an association list in insertion order;
    - an exception is a value of [exn], carried by [result];
    - a tensor of dtype [long] is the list of its integers, each in the
      range of [int64]; [torch.tensor] raises on any other value. *)

From Stdlib Require Import ZArith Floats Ascii.
From stdpp Require Import base option list strings gmap fin_maps.

Local Open Scope Z_scope.

(** ** Exceptions *)

Inductive exn : Type :=
  | KeyError (key : string)
  | IndexError
  | ZeroDivisionError
  | ConversionError.
(** [ConversionError] stands for the exception of
    [torch.tensor(..., dtype=torch.long)] on a value that is not an [int64]:
    a [RuntimeError] for an integer out of range, a [ValueError] or a
    [RuntimeError], by version, for a missing value. *)

Inductive result (A : Type) : Type :=
  | Ok (a : A)
  | Raise (e : exn).
Arguments Ok {A} a.
Arguments Raise {A} e.

(** Sequencing: the first exception raised aborts what follows. *)
#[global] Instance result_ret : MRet result := λ A a, Ok a.
#[global] Instance result_bind : MBind result := λ A B k r,
  match r with
  | Ok a => k a
  | Raise e => Raise e
  end.

Module Text.

(** ** [simple_tokenizer] *)

(** [str.lower] on one code point of the Latin-1 block: the letters A-Z
    and the accented capitals (all of 192..222 but the multiplication
    sign 215) move up by 32. On this block [str.lower] works character by
    character; its context rules (the final sigma) concern code points
    outside the block, which a [string] does not hold. *)
Definition lower_char (c : ascii) : ascii :=
  let n := N_of_ascii c in
  if ((65 <=? n) && (n <=? 90) || (192 <=? n) && (n <=? 222) && negb (n =? 215))%N
  then ascii_of_N (n + 32)
  else c.

Fixpoint lower (s : string) : string :=
  match s with
  | EmptyString => EmptyString
  | String c s' => String (lower_char c) (lower s')
  end.

(** The class [\w] of a [str] pattern on the Latin-1 block: digits,
    letters, the underscore, and the alphanumeric code points above 127. *)
Definition is_word (c : ascii) : bool :=
  let n := N_of_ascii c in
  ((48 <=? n) && (n <=? 57) || (65 <=? n) && (n <=? 90) || (n =? 95)
   || (97 <=? n) && (n <=? 122)
   || (n =? 170) || (n =? 178) || (n =? 179) || (n =? 181) || (n =? 185)
   || (n =? 186) || (188 <=? n) && (n <=? 190)
   || (192 <=? n) && negb (n =? 215) && negb (n =? 247))%N.

(** The strings made of word characters only. *)
Fixpoint all_word (s : string) : bool :=
  match s with
  | EmptyString => true
  | String c s' => is_word c && all_word s'
  end.

(** [re.findall(r'\w+', s)]: the maximal runs of word characters, left to
    right; [cur] is the run being read. *)
Fixpoint findall_word (cur : string) (s : string) : list string :=
  match s with
  | EmptyString => if decide (cur = "") then [] else [cur]
  | String c s' =>
      if is_word c then findall_word (cur +:+ String c "") s'
      else if decide (cur = "") then findall_word "" s'
      else cur :: findall_word "" s'
  end.

Definition simple_tokenizer (text : string) : list string :=
  findall_word "" (lower text).

(** ** [text_to_sequence] and [pad_sequence] *)

(** [vocab[key]] *)
Definition getitem (vocab : gmap string Z) (key : string) : result Z :=
  match vocab !! key with
  | Some i => Ok i
  | None => Raise (KeyError key)
  end.

(** [vocab.get(key, dflt)] *)
Definition get (vocab : gmap string Z) (key : string) (dflt : Z) : Z :=
  default dflt (vocab !! key).

(** The list comprehension of [text_to_sequence]: the default
    [vocab["<unk>"]] is evaluated at every token, before the lookup. *)
Fixpoint comprehension (vocab : gmap string Z) (tokens : list string)
  : result (list Z) :=
  match tokens with
  | [] => Ok []
  | token :: rest =>
      unk ← getitem vocab "<unk>" ;
      seq ← comprehension vocab rest ;
      Ok (get vocab token unk :: seq)
  end.

Definition text_to_sequence (text : string) (vocab : gmap string Z)
  : result (list Z) :=
  let tokens := simple_tokenizer text in
  comprehension vocab tokens.

(** [len(l)] *)
Definition len {A : Type} (l : list A) : Z := Z.of_nat (length l).

(** [l[:n]]: a negative bound counts from the end. *)
Definition slice_to {A : Type} (l : list A) (n : Z) : list A :=
  if n <? 0 then take (Z.to_nat (len l + n)) l else take (Z.to_nat n) l.

(** [[x] * n]: empty when [n] is not positive. *)
Definition repeat_list {A : Type} (x : A) (n : Z) : list A :=
  replicate (Z.to_nat n) x.

Definition pad_sequence (sequence : list Z) (max_length : Z) : list Z :=
  if len sequence <? max_length
  then sequence ++ repeat_list 0 (max_length - len sequence)
  else slice_to sequence max_length.

(** The vocabulary of the docstring of [text_to_sequence]:
    [{"<pad>": 0, "<unk>": 1, "hello": 2, "world": 3}]. *)
Definition example_vocab : gmap string Z :=
  <["world" := 3]> (<["hello" := 2]> (<["<unk>" := 1]> (<["<pad>" := 0]> ∅))).

(** The encoder: [pad_sequence(text_to_sequence(text, vocab), max_len)]. *)
Definition encode (text : string) (vocab : gmap string Z) (max_len : Z)
  : result (list Z) :=
  sequence ← text_to_sequence text vocab ;
  Ok (pad_sequence sequence max_len).

End Text.

Module Vocab.
Import Text.

(** ** [build_vocab] *)

(** [word_counts]: a dictionary that is iterated, kept in insertion order. *)
Fixpoint counts_get (word_counts : list (string * Z)) (token : string)
    (dflt : Z) : Z :=
  match word_counts with
  | [] => dflt
  | (k, v) :: rest => if decide (k = token) then v else counts_get rest token dflt
  end.

(** [word_counts[token] = v]: a known key keeps its place, a new key goes
    to the end. *)
Fixpoint counts_set (word_counts : list (string * Z)) (token : string)
    (v : Z) : list (string * Z) :=
  match word_counts with
  | [] => [(token, v)]
  | (k, v') :: rest =>
      if decide (k = token) then (k, v) :: rest
      else (k, v') :: counts_set rest token v
  end.

(** [word_counts[token] = word_counts.get(token, 0) + 1] *)
Definition count_token (word_counts : list (string * Z)) (token : string)
  : list (string * Z) :=
  counts_set word_counts token (counts_get word_counts token 0 + 1).

(** The inner loop, over the tokens of one text. *)
Definition count_text (word_counts : list (string * Z)) (text : string)
  : list (string * Z) :=
  foldl count_token word_counts (simple_tokenizer text).

(** The first loop of [build_vocab]. *)
Definition count_words (texts : list string) : list (string * Z) :=
  foldl count_text [] texts.

(** [len(vocab)] *)
Definition dict_len (vocab : gmap string Z) : Z := Z.of_nat (size vocab).

(** [{"<pad>": 0, "<unk>": 1}] *)
Definition reserved : gmap string Z := <["<unk>" := 1]> (<["<pad>" := 0]> ∅).

(** The body of the second loop:
    [if count >= min_freq and token not in vocab: vocab[token] = len(vocab)]. *)
Definition add_token (min_freq : Z) (vocab : gmap string Z) (item : string * Z)
  : gmap string Z :=
  let '(token, count) := item in
  if bool_decide (min_freq ≤ count) && bool_decide (vocab !! token = None)
  then <[token := dict_len vocab]> vocab
  else vocab.

Definition build_vocab (texts : list string) (min_freq : Z) : gmap string Z :=
  let vocab := reserved in
  let word_counts := count_words texts in
  foldl (add_token min_freq) vocab word_counts.

(** *** Vocabulary of the specification *)

(** All tokens of the collection, in reading order. *)
Definition all_tokens (texts : list string) : list string :=
  concat (simple_tokenizer <$> texts).

(** Number of occurrences of a token. *)
Fixpoint occurrences (token : string) (tokens : list string) : Z :=
  match tokens with
  | [] => 0
  | t :: rest =>
      (if decide (t = token) then 1 else 0) + occurrences token rest
  end.

(** The distinct tokens, each at the place of its first occurrence. *)
Fixpoint first_seen (tokens : list string) : list string :=
  match tokens with
  | [] => []
  | t :: rest => t :: filter (λ t', t' ≠ t) (first_seen rest)
  end.

(** The tokens frequent enough, in first-seen order. *)
Definition frequent (texts : list string) (min_freq : Z) : list string :=
  filter (λ t, min_freq ≤ occurrences t (all_tokens texts))
         (first_seen (all_tokens texts)).

(** Consecutive indices from [n] on. *)
Fixpoint index_from (n : Z) (tokens : list string) : list (string * Z) :=
  match tokens with
  | [] => []
  | t :: rest => (t, n) :: index_from (n + 1) rest
  end.

(** The mapping that sends the [i]-th token of a list to [i]. *)
Definition indexed (tokens : list string) : gmap string Z :=
  list_to_map (index_from 0 tokens).

(** The entries of a vocabulary, in index order. *)
Definition entries (texts : list string) (min_freq : Z) : list string :=
  "<pad>" :: "<unk>" :: frequent texts min_freq.

End Vocab.

Module Dataset.
Import Text.

(** ** [TweetDataset] *)

(** The texts and labels are held in a [list] or in a pandas [Series]. *)
Inductive collection (A : Type) : Type :=
  | PyList (items : list A)
  | Series (values : list A).
Arguments PyList {A} items.
Arguments Series {A} values.

Definition contents {A : Type} (c : collection A) : list A :=
  match c with
  | PyList items => items
  | Series values => values
  end.

(** Positional access: a negative position counts from the end, and a
    position that is still out of range raises [IndexError]. *)
Definition positional {A : Type} (l : list A) (idx : Z) : result A :=
  let i := if idx <? 0 then idx + len l else idx in
  if (0 <=? i) && (i <? len l)
  then match l !! Z.to_nat i with
       | Some x => Ok x
       | None => Raise IndexError
       end
  else Raise IndexError.

(** [c.iloc[idx] if isinstance(c, pd.Series) else c[idx]] *)
Definition subscript {A : Type} (c : collection A) (idx : Z) : result A :=
  match c with
  | Series values => positional values idx
  | PyList items => positional items idx
  end.

(** A label is an [int], or the missing value [NaN] that the label mapping
    leaves for an unknown label string, here [None]. *)
Record TweetDataset : Type := {
  texts : collection string;
  labels : collection (option Z);
  vocab : gmap string Z;
  max_len : Z
}.

(** The range of [torch.long]. *)
Definition fits_long (z : Z) : bool := (- 2 ^ 63 <=? z) && (z <? 2 ^ 63).

(** [torch.tensor(l, dtype=torch.long)] on a list of [int]s. *)
Definition tensor_long (l : list Z) : result (list Z) :=
  if forallb fits_long l then Ok l else Raise ConversionError.

(** [torch.tensor(x, dtype=torch.long)] on one label. *)
Definition tensor_long_label (x : option Z) : result Z :=
  match x with
  | Some z => if fits_long z then Ok z else Raise ConversionError
  | None => Raise ConversionError
  end.

(** The labels that [torch.tensor] accepts. *)
Definition long_label (x : option Z) : Prop :=
  ∃ z, x = Some z ∧ fits_long z = true.

(** [__len__] *)
Definition dataset_len (self : TweetDataset) : Z := len (contents (texts self)).

(** [__getitem__] *)
Definition dataset_getitem (self : TweetDataset) (idx : Z)
  : result (list Z * Z) :=
  text_item ← subscript (texts self) idx ;
  label_item ← subscript (labels self) idx ;
  sequence ← text_to_sequence text_item (vocab self) ;
  let padded_sequence := pad_sequence sequence (max_len self) in
  input_ids ← tensor_long padded_sequence ;
  label ← tensor_long_label label_item ;
  Ok (input_ids, label).

End Dataset.

Module Classifier.

(** ** [Binary_Classifier] *)

(** The layers of the framework, as functions of the parameters. [Gen] is
    the state of the random generator, drawn from by dropout only. *)
Class Layers : Type := {
  Params : Type;
  Tensor : Type;
  Gen : Type;
  embedding : Params → list (list Z) → Tensor;
  lstm : Params → Tensor → Tensor * Tensor;
  last_step : Tensor → Tensor;
  drop : float → Gen → Tensor → Tensor * Gen;
  fc : Params → Tensor → Tensor
}.

Section forward.
Context `{Layers}.

Record Binary_Classifier : Type := {
  training : bool;
  parameters : Params
}.

(** [model.train()] and [model.eval()] *)
Definition train (self : Binary_Classifier) : Binary_Classifier :=
  {| training := true; parameters := parameters self |}.
Definition eval (self : Binary_Classifier) : Binary_Classifier :=
  {| training := false; parameters := parameters self |}.

(** [nn.Dropout(p)]: the identity unless the module is in training mode. *)
Definition dropout (p : float) (self : Binary_Classifier) (g : Gen) (x : Tensor)
  : Tensor * Gen :=
  if training self then drop p g x else (x, g).

(** The drop probability [0.6], as the nearest binary64 value. *)
Definition p_drop : float := 0x1.3333333333333p-1%float.

Definition forward (self : Binary_Classifier) (g : Gen) (x : list (list Z))
  : Tensor * Gen :=
  let x := embedding (parameters self) x in
  let '(x, _) := lstm (parameters self) x in
  let '(x, g) := dropout p_drop self g (last_step x) in
  let logits := fc (parameters self) x in
  (logits, g).

End forward.

(** Layers over integers to run the classifier on: the generator is a
    counter, and dropout zeroes the tensor at an odd count. *)
Definition counting_layers : Layers := {|
  Params := Z;
  Tensor := list Z;
  Gen := Z;
  embedding := λ w x, (λ row, w + foldr Z.add 0 row) <$> x;
  lstm := λ w x, (x, x);
  last_step := λ x, x;
  drop := λ p g x, (if Z.odd g then (λ _, 0) <$> x else x, g + 1);
  fc := λ w x, x
|}.

End Classifier.

Module Loop.
Import Text.

(** ** [train_model] and the prediction loop *)

(** The model, the criterion and the optimizer are arguments of the loops.
    [State] gathers what they mutate: parameters, mode, gradients,
    optimizer moments and random generator. *)
Class Framework : Type := {
  State : Type;
  Logit : Type;
  Loss : Type;
  model_train : State → State;
  model_eval : State → State;
  model_call : State → list (list Z) → list (list Logit) * State;
  criterion : list (list Logit) → list Z → Loss;
  zero_grad : State → State;
  backward : Loss → State → State;
  step : State → State;
  item : Loss → float;
  no_grad_enter : State → State;
  no_grad_exit : State → State;
  gt : Logit → Logit → bool
}.

Section loops.
Context `{Framework}.

(** A [DataLoader]: its number of batches, and the batches of one
    iteration; a shuffling loader draws its order from the generator. *)
Record DataLoader : Type := {
  loader_len : Z;
  loader_iter : State → list (list (list Z) * list Z) * State
}.

(** [int] to [float], rounding to nearest. *)
Definition float_of_Z (n : Z) : float :=
  SF2Prim (binary_normalize prec emax n 0 false).

(** [x / n] of a [float] by an [int] *)
Definition truediv (x : float) (n : Z) : result float :=
  if n =? 0 then Raise ZeroDivisionError
  else Ok (PrimFloat.div x (float_of_Z n)).

(** The body of the training pass. *)
Definition train_batch (acc : State * float) (batch : list (list Z) * list Z)
  : State * float :=
  let '(st, train_loss) := acc in
  let '(input_ids, labels) := batch in
  let st := zero_grad st in
  let '(outputs, st) := model_call st input_ids in
  let loss := criterion outputs labels in
  let st := backward loss st in
  let st := step st in
  (st, PrimFloat.add train_loss (item loss)).

(** The body of the validation pass. *)
Definition val_batch (acc : State * float) (batch : list (list Z) * list Z)
  : State * float :=
  let '(st, val_loss) := acc in
  let '(input_ids, labels) := batch in
  let '(outputs, st) := model_call st input_ids in
  let loss := criterion outputs labels in
  (st, PrimFloat.add val_loss (item loss)).

(** One round of the loop over [range(epochs)]; the two [print] calls write
    to the console only and are left out. *)
Definition epoch (train_loader val_loader : DataLoader)
    (acc : State * list float * list float)
  : result (State * list float * list float) :=
  let '(st, train_losses, val_losses) := acc in
  let st := model_train st in
  let train_loss := 0%float in
  let '(batches, st) := loader_iter train_loader st in
  let '(st, train_loss) := foldl train_batch (st, train_loss) batches in
  avg_train_loss ← truediv train_loss (loader_len train_loader) ;
  let train_losses := train_losses ++ [avg_train_loss] in
  let st := model_eval st in
  let val_loss := 0%float in
  let st := no_grad_enter st in
  let '(batches, st) := loader_iter val_loader st in
  let '(st, val_loss) := foldl val_batch (st, val_loss) batches in
  let st := no_grad_exit st in
  avg_val_loss ← truediv val_loss (loader_len val_loader) ;
  let val_losses := val_losses ++ [avg_val_loss] in
  Ok (st, train_losses, val_losses).

Fixpoint for_range (n : nat) (train_loader val_loader : DataLoader)
    (acc : State * list float * list float)
  : result (State * list float * list float) :=
  match n with
  | O => Ok acc
  | S n' =>
      acc' ← epoch train_loader val_loader acc ;
      for_range n' train_loader val_loader acc'
  end.

(** [train_model]; [range(epochs)] is empty when [epochs] is not positive.
    The result is the pair returned, with the final state. *)
Definition train_model (st : State) (train_loader val_loader : DataLoader)
    (epochs : Z) : result (list float * list float * State) :=
  let val_losses := [] in
  let train_losses := [] in
  '(st, train_losses, val_losses) ←
    for_range (Z.to_nat epochs) train_loader val_loader
              (st, train_losses, val_losses) ;
  Ok (train_losses, val_losses, st).

(** [torch.argmax] along a row: the index of the first maximal value.
    [best] is the greatest value met so far, at index [best_i]. *)
Fixpoint argmax_from (best : Logit) (best_i i : nat) (row : list Logit) : nat :=
  match row with
  | [] => best_i
  | x :: rest =>
      if gt x best then argmax_from x i (S i) rest
      else argmax_from best best_i (S i) rest
  end.

Definition argmax (row : list Logit) : result Z :=
  match row with
  | [] => Raise IndexError
  | x :: rest => Ok (Z.of_nat (argmax_from x 0 1 rest))
  end.

(** [torch.argmax(outputs, dim=1)] *)
Fixpoint argmax_dim1 (outputs : list (list Logit)) : result (list Z) :=
  match outputs with
  | [] => Ok []
  | row :: rest =>
      p ← argmax row ;
      ps ← argmax_dim1 rest ;
      Ok (p :: ps)
  end.

(** The body of the prediction loop. *)
Definition predict_batch (acc : State * list Z) (batch : list (list Z) * list Z)
  : result (State * list Z) :=
  let '(st, all_preds) := acc in
  let '(input_ids, _) := batch in
  let '(outputs, st) := model_call st input_ids in
  preds ← argmax_dim1 outputs ;
  Ok (st, all_preds ++ preds).

Fixpoint predict_batches (batches : list (list (list Z) * list Z))
    (acc : State * list Z) : result (State * list Z) :=
  match batches with
  | [] => Ok acc
  | batch :: rest =>
      acc' ← predict_batch acc batch ;
      predict_batches rest acc'
  end.

(** The prediction cell: the predicted labels, with the final state. *)
Definition predict (st : State) (test_loader : DataLoader)
  : result (list Z * State) :=
  let st := model_eval st in
  let all_preds := [] in
  let st := no_grad_enter st in
  let '(batches, st) := loader_iter test_loader st in
  '(st, all_preds) ← predict_batches batches (st, all_preds) ;
  let st := no_grad_exit st in
  Ok (all_preds, st).

(** A loader announces the number of batches that an iteration yields. *)
Definition consistent (loader : DataLoader) : Prop :=
  ∀ st, len (loader_iter loader st).1 = loader_len loader.

(** *** Losses of the specification *)

(** The losses of the batches of a training pass, in order. *)
Fixpoint train_pass (st : State) (batches : list (list (list Z) * list Z))
  : list float * State :=
  match batches with
  | [] => ([], st)
  | (input_ids, labels) :: rest =>
      let '(outputs, st1) := model_call (zero_grad st) input_ids in
      let loss := criterion outputs labels in
      let '(losses, st2) := train_pass (step (backward loss st1)) rest in
      (item loss :: losses, st2)
  end.

(** The losses of the batches of a validation pass, in order. *)
Fixpoint val_pass (st : State) (batches : list (list (list Z) * list Z))
  : list float * State :=
  match batches with
  | [] => ([], st)
  | (input_ids, labels) :: rest =>
      let '(outputs, st1) := model_call st input_ids in
      let '(losses, st2) := val_pass st1 rest in
      (item (criterion outputs labels) :: losses, st2)
  end.

(** The arithmetic mean: the sum, from [0.0] on, over the count. *)
Definition mean (losses : list float) : float :=
  PrimFloat.div (foldl PrimFloat.add 0%float losses) (float_of_Z (len losses)).

(** The per-batch losses of one round, and the state it leaves. *)
Definition round_losses (train_loader val_loader : DataLoader) (st : State)
  : list float * list float * State :=
  let '(tb, st) := loader_iter train_loader (model_train st) in
  let '(tl, st) := train_pass st tb in
  let '(vb, st) := loader_iter val_loader (no_grad_enter (model_eval st)) in
  let '(vl, st) := val_pass st vb in
  (tl, vl, no_grad_exit st).

(** The per-batch losses of the first [n] rounds. *)
Fixpoint rounds (n : nat) (train_loader val_loader : DataLoader) (st : State)
  : list (list float * list float) :=
  match n with
  | O => []
  | S n' =>
      let '(tl, vl, st') := round_losses train_loader val_loader st in
      (tl, vl) :: rounds n' train_loader val_loader st'
  end.

(** The logits of the batches of an evaluation pass, in order. *)
Fixpoint eval_outputs (st : State) (batches : list (list (list Z) * list Z))
  : list (list (list Logit)) :=
  match batches with
  | [] => []
  | (input_ids, _) :: rest =>
      let '(outputs, st1) := model_call st input_ids in
      outputs :: eval_outputs st1 rest
  end.

(** [p] is the index of the first maximal value of [row]. *)
Definition first_max (row : list Logit) (p : Z) : Prop :=
  ∃ (i : nat) (x : Logit),
    p = Z.of_nat i ∧ row !! i = Some x
    ∧ (∀ j y, row !! j = Some y → gt y x = false)
    ∧ (∀ j y, (j < i)%nat → row !! j = Some y → gt x y = true).

End loops.

(** A small framework to run the loops on: the state is one integer weight,
    a row of logits is the sum of the input row and the weight, the loss is
    the number of rows plus the sum of the labels. *)
Definition counting : Framework := {|
  State := Z;
  Logit := Z;
  Loss := Z;
  model_train := λ w, w;
  model_eval := λ w, w;
  model_call := λ w x, ((λ row, [foldr Z.add 0 row; w]) <$> x, w);
  criterion := λ outputs labels, len outputs + foldr Z.add 0 labels;
  zero_grad := λ w, w;
  backward := λ loss w, w + loss;
  step := λ w, w + 1;
  item := λ loss, float_of_Z loss;
  no_grad_enter := λ w, w;
  no_grad_exit := λ w, w;
  gt := λ x y, y <? x
|}.

(** A loader over a fixed list of batches, in input order. *)
Definition fixed_loader `{Framework} (batches : list (list (list Z) * list Z))
  : DataLoader :=
  {| loader_len := len batches; loader_iter := λ st, (batches, st) |}.

End Loop.

Module Report.
Import Text.

(** ** Label mapping and accuracy *)

(** [{"UNINFORMATIVE": 0, "INFORMATIVE": 1}] *)
Definition label_mapping : gmap string Z :=
  <["INFORMATIVE" := 1]> (<["UNINFORMATIVE" := 0]> ∅).

(** [{0: "UNINFORMATIVE", 1: "INFORMATIVE"}] *)
Definition reverse_label_mapping : gmap Z string :=
  <[1 := "INFORMATIVE"]> (<[0 := "UNINFORMATIVE"]> ∅).

(** [Series.map(d)] with a dictionary: a value that is not a key, or that
    is missing already, becomes the missing value [NaN], here [None]. *)
Definition series_map `{Countable K} {V : Type} (d : gmap K V)
    (column : list (option K)) : list (option V) :=
  (λ x, x ≫= (d !!.)) <$> column.

(** [a != b] on two cells: a missing value differs from everything. *)
Definition cell_ne (a b : option string) : bool :=
  match a, b with
  | Some x, Some y => bool_decide (x ≠ y)
  | _, _ => true
  end.

(** [len(df[df["Label"] != df["predicted Label"]])], on the rows of the
    frame as pairs of the two cells. *)
Definition different_rows (frame : list (option string * option string)) : Z :=
  len (filter (λ row, cell_ne row.1 row.2 = true) frame).

(** [100 * (1 - different_rows / total_rows)]: the quotient of two [int]s
    raises [ZeroDivisionError] on an empty frame. *)
Definition accuracy (frame : list (option string * option string))
  : result float :=
  let different_rows := different_rows frame in
  let total_rows := len frame in
  if total_rows =? 0 then Raise ZeroDivisionError
  else Ok (100 * (1 - Loop.float_of_Z different_rows
                        / Loop.float_of_Z total_rows))%float.

End Report.

Module Derived.
Import Text Vocab.

(** ** Notions used to state further properties *)

(** [" ".join(tokens)] *)
Fixpoint join_spaces (tokens : list string) : string :=
  match tokens with
  | [] => ""
  | [t] => t
  | t :: rest => t +:+ " " +:+ join_spaces rest
  end.

(** The sum of the counts of a dictionary of counts. *)
Definition total_count (word_counts : list (string * Z)) : Z :=
  foldr (λ item acc, item.2 + acc) 0 word_counts.

(** The token of an index, in a vocabulary given by its entries. *)
Definition decode (entries : list string) (i : Z) : option string :=
  if i <? 0 then None else entries !! Z.to_nat i.

End Derived.

Import Text Vocab Dataset Classifier Loop Report Derived.

(** * Properties *)

(** ** Tokens *)

Lemma all_word_snoc (s : string) (c : ascii) :
  all_word s = true → is_word c = true → all_word (s +:+ String c "") = true.
Proof.
  induction s as [|d s IH]; simpl; intros Hs Hc.
  - by rewrite Hc.
  - apply andb_true_iff in Hs as [-> Hs]. simpl. by apply IH.
Qed.

Lemma findall_word_all_word (s cur : string) :
  all_word cur = true → Forall (λ t, all_word t = true) (findall_word cur s).
Proof.
  revert cur. induction s as [|c s IH]; intros cur Hcur; simpl.
  - case_decide; by repeat constructor.
  - destruct (is_word c) eqn:Hc.
    + apply IH. by apply all_word_snoc.
    + case_decide; [by apply IH|]. constructor; [done|by apply IH].
Qed.

Lemma simple_tokenizer_all_word (text : string) :
  Forall (λ t, all_word t = true) (simple_tokenizer text).
Proof. by apply findall_word_all_word. Qed.

Lemma all_tokens_all_word (texts : list string) :
  Forall (λ t, all_word t = true) (all_tokens texts).
Proof.
  unfold all_tokens. induction texts as [|text texts IH]; simpl; [constructor|].
  apply Forall_app. split; [apply simple_tokenizer_all_word|done].
Qed.

(** No token of a text is one of the two reserved entries. *)
Lemma token_not_reserved (texts : list string) (t : string) :
  t ∈ all_tokens texts → t ≠ "<pad>" ∧ t ≠ "<unk>".
Proof.
  intros Ht.
  pose proof (proj1 (Forall_forall _ _) (all_tokens_all_word texts) t Ht) as Hw.
  split; intros ->; discriminate Hw.
Qed.

(** ** Word counts *)

Lemma counts_set_keys_in (wc : list (string * Z)) (t : string) (v : Z) :
  t ∈ wc.*1 → (counts_set wc t v).*1 = wc.*1.
Proof.
  induction wc as [|[k v'] wc IH]; csimpl; intros Hin.
  - by apply elem_of_nil in Hin.
  - case_decide; csimpl; [done|].
    apply elem_of_cons in Hin as [->|Hin]; [done|]. by rewrite IH.
Qed.

Lemma counts_set_keys_new (wc : list (string * Z)) (t : string) (v : Z) :
  t ∉ wc.*1 → (counts_set wc t v).*1 = wc.*1 ++ [t].
Proof.
  induction wc as [|[k v'] wc IH]; csimpl; intros Hin; [done|].
  apply not_elem_of_cons in Hin as [Hne Hin].
  case_decide; [congruence|]. csimpl. by rewrite IH.
Qed.

Lemma counts_get_set (wc : list (string * Z)) (t t' : string) (v d : Z) :
  counts_get (counts_set wc t v) t' d
  = if decide (t = t') then v else counts_get wc t' d.
Proof.
  induction wc as [|[k v'] wc IH]; csimpl.
  - repeat case_decide; congruence.
  - destruct (decide (k = t)) as [->|Hkt]; csimpl.
    + repeat case_decide; congruence.
    + rewrite IH. repeat case_decide; congruence.
Qed.

Lemma filter_absorb (K : list string) (x : string) (l : list string) :
  x ∈ K → filter (λ t, t ∉ K) (filter (λ t', t' ≠ x) l) = filter (λ t, t ∉ K) l.
Proof.
  intros Hx. apply list_filter_filter_l. intros y Hy ->. done.
Qed.

Lemma filter_snoc_key (K : list string) (x : string) (l : list string) :
  filter (λ t, t ∉ K ++ [x]) l = filter (λ t, t ∉ K) (filter (λ t', t' ≠ x) l).
Proof.
  rewrite list_filter_filter. apply list_filter_iff. intros y.
  rewrite elem_of_app, list_elem_of_singleton. tauto.
Qed.

Lemma filter_no_keys (l : list string) :
  filter (λ t, t ∉ @nil string) l = l.
Proof.
  induction l as [|x l IH]; [done|].
  rewrite filter_cons_True by apply not_elem_of_nil. by rewrite IH.
Qed.

(** The keys after counting a run of tokens: the old keys, then the new
    tokens in first-seen order. *)
Lemma count_tokens_keys (tokens : list string) (wc : list (string * Z)) :
  (foldl count_token wc tokens).*1
  = wc.*1 ++ filter (λ t, t ∉ wc.*1) (first_seen tokens).
Proof.
  revert wc. induction tokens as [|x tokens IH]; intros wc; csimpl.
  - by rewrite app_nil_r.
  - rewrite IH. unfold count_token.
    destruct (decide (x ∈ wc.*1)) as [Hin|Hin].
    + rewrite counts_set_keys_in by done.
      rewrite filter_cons_False by (intros H; by apply H).
      by rewrite filter_absorb.
    + rewrite counts_set_keys_new by done.
      rewrite filter_cons_True by done.
      rewrite <- app_assoc. csimpl. by rewrite filter_snoc_key.
Qed.

Lemma count_tokens_get (tokens : list string) (wc : list (string * Z)) (t : string) :
  counts_get (foldl count_token wc tokens) t 0
  = counts_get wc t 0 + occurrences t tokens.
Proof.
  revert wc. induction tokens as [|x tokens IH]; intros wc; csimpl; [lia|].
  rewrite IH. unfold count_token. rewrite counts_get_set.
  destruct (decide (x = t)) as [->|Hne]; lia.
Qed.

Lemma count_words_tokens (texts : list string) (wc : list (string * Z)) :
  foldl count_text wc texts = foldl count_token wc (all_tokens texts).
Proof.
  revert wc. unfold all_tokens.
  induction texts as [|text texts IH]; intros wc; csimpl; [done|].
  by rewrite foldl_app, IH.
Qed.

Lemma first_seen_elem (tokens : list string) (t : string) :
  t ∈ first_seen tokens ↔ t ∈ tokens.
Proof.
  induction tokens as [|x tokens IH]; csimpl; [done|].
  rewrite !elem_of_cons, list_elem_of_filter, IH.
  destruct (decide (t = x)); tauto.
Qed.

Lemma first_seen_NoDup (tokens : list string) : NoDup (first_seen tokens).
Proof.
  induction tokens as [|x tokens IH]; csimpl; [constructor|].
  apply NoDup_cons. split.
  - rewrite list_elem_of_filter. by intros [Hx _].
  - by apply NoDup_filter.
Qed.

Lemma counts_items (wc : list (string * Z)) :
  NoDup wc.*1 → wc = (λ t, (t, counts_get wc t 0)) <$> wc.*1.
Proof.
  induction wc as [|[k v] wc IH]; csimpl; intros Hnd; [done|].
  apply NoDup_cons in Hnd as [Hk Hnd].
  rewrite decide_True by done. f_equal.
  rewrite IH at 1 by done.
  apply list_fmap_ext. intros i t Ht.
  rewrite decide_False; [done|].
  intros ->. apply Hk. by eapply list_elem_of_lookup_2.
Qed.

(** The dictionary of counts after the first loop. *)
Lemma count_words_spec (texts : list string) :
  count_words texts
  = (λ t, (t, occurrences t (all_tokens texts))) <$> first_seen (all_tokens texts).
Proof.
  unfold count_words. rewrite count_words_tokens.
  set (toks := all_tokens texts).
  assert (Hkeys : (foldl count_token [] toks).*1 = first_seen toks).
  { rewrite count_tokens_keys. csimpl.
    apply filter_no_keys. }
  rewrite (counts_items (foldl count_token [] toks))
    by (rewrite Hkeys; apply first_seen_NoDup).
  rewrite Hkeys. apply list_fmap_ext. intros i t _.
  by rewrite count_tokens_get.
Qed.

(** ** Indexed vocabularies *)

Lemma index_from_keys (n : Z) (l : list string) : (index_from n l).*1 = l.
Proof.
  revert n. induction l as [|t l IH]; intros n; csimpl; [done|]. by rewrite IH.
Qed.

Lemma index_from_length (n : Z) (l : list string) :
  length (index_from n l) = length l.
Proof. by rewrite <- (length_fmap fst), index_from_keys. Qed.

Lemma index_from_app (n : Z) (l1 l2 : list string) :
  index_from n (l1 ++ l2) = index_from n l1 ++ index_from (n + len l1) l2.
Proof.
  revert n. induction l1 as [|t l1 IH]; intros n; csimpl.
  - f_equal. unfold len. simpl. lia.
  - rewrite IH. do 3 f_equal. unfold len. simpl length. lia.
Qed.

Lemma index_from_elem (n : Z) (l : list string) (t : string) (i : Z) :
  (t, i) ∈ index_from n l ↔ ∃ k : nat, l !! k = Some t ∧ i = n + Z.of_nat k.
Proof.
  revert n. induction l as [|x l IH]; intros n; csimpl.
  - split; [by intros ?%elem_of_nil|by intros (k & ? & _)].
  - rewrite elem_of_cons, IH. split.
    + intros [[= -> ->]|(k & Hk & ->)].
      * exists 0%nat. split; [done|lia].
      * exists (S k). split; [done|lia].
    + intros ([|k] & Hk & ->); simpl in Hk.
      * left. injection Hk as ->. f_equal. lia.
      * right. exists k. split; [done|lia].
Qed.

Lemma indexed_lookup (l : list string) (t : string) (i : Z) :
  NoDup l →
  indexed l !! t = Some i ↔ ∃ k : nat, l !! k = Some t ∧ i = Z.of_nat k.
Proof.
  intros Hnd. unfold indexed.
  rewrite <- elem_of_list_to_map by (by rewrite index_from_keys).
  rewrite index_from_elem. by setoid_rewrite Z.add_0_l.
Qed.

Lemma indexed_None (l : list string) (t : string) :
  indexed l !! t = None ↔ t ∉ l.
Proof.
  unfold indexed. rewrite <- not_elem_of_list_to_map. by rewrite index_from_keys.
Qed.

Lemma indexed_is_Some (l : list string) (t : string) :
  is_Some (indexed l !! t) ↔ t ∈ l.
Proof.
  rewrite <- not_eq_None_Some, indexed_None.
  destruct (decide (t ∈ l)); tauto.
Qed.

Lemma indexed_size (l : list string) :
  NoDup l → dict_len (indexed l) = len l.
Proof.
  intros Hnd. unfold dict_len, len, indexed.
  rewrite map_size_list_to_map by (by rewrite index_from_keys).
  by rewrite index_from_length.
Qed.

Lemma indexed_snoc (l : list string) (t : string) :
  t ∉ l → indexed (l ++ [t]) = <[t := len l]> (indexed l).
Proof.
  intros Ht. unfold indexed. rewrite index_from_app. simpl.
  rewrite list_to_map_snoc by (by rewrite index_from_keys). done.
Qed.

Lemma reserved_indexed : reserved = indexed ["<pad>"; "<unk>"].
Proof. unfold reserved, indexed. simpl. by apply insert_insert_ne. Qed.

(** The second loop, started on an indexed vocabulary, extends it with the
    frequent keys, in the order of the dictionary of counts. *)
Lemma add_token_fold (min_freq : Z) (f : string → Z) (keys L : list string) :
  NoDup (L ++ keys) →
  foldl (add_token min_freq) (indexed L) ((λ t, (t, f t)) <$> keys)
  = indexed (L ++ filter (λ t, min_freq ≤ f t) keys).
Proof.
  revert L. induction keys as [|t keys IH]; intros L Hnd; csimpl.
  - by rewrite app_nil_r.
  - assert (HL : NoDup L) by (by apply NoDup_app in Hnd as (? & _ & _)).
    assert (Ht : t ∉ L).
    { apply NoDup_app in Hnd as (_ & Hd & _). intros Hin.
      apply (Hd t Hin), elem_of_cons. by left. }
    assert (Hnd' : NoDup ((L ++ [t]) ++ keys)) by (by rewrite <- app_assoc).
    rewrite (bool_decide_eq_true_2 (indexed L !! t = None))
      by (by apply indexed_None).
    rewrite andb_true_r. destruct (decide (min_freq ≤ f t)) as [Hf|Hf].
    + rewrite bool_decide_eq_true_2 by done.
      rewrite filter_cons_True by done.
      rewrite indexed_size by done. rewrite <- indexed_snoc by done.
      rewrite IH by done. by rewrite <- app_assoc.
    + rewrite bool_decide_eq_false_2 by done.
      rewrite filter_cons_False by done.
      apply IH. apply NoDup_app in Hnd as (? & Hd & Hk%NoDup_cons).
      apply NoDup_app. split_and!; [done| |tauto].
      intros x Hx Hx'. apply (Hd x Hx), elem_of_cons. by right.
Qed.

Lemma frequent_elem (texts : list string) (min_freq : Z) (t : string) :
  t ∈ frequent texts min_freq
  ↔ t ∈ all_tokens texts ∧ min_freq ≤ occurrences t (all_tokens texts).
Proof.
  unfold frequent. rewrite list_elem_of_filter, first_seen_elem. tauto.
Qed.

Lemma entries_NoDup (texts : list string) (min_freq : Z) :
  NoDup ("<pad>" :: "<unk>" :: first_seen (all_tokens texts)).
Proof.
  assert (Hres : ∀ t, t ∈ first_seen (all_tokens texts) →
                      t ≠ "<pad>" ∧ t ≠ "<unk>").
  { intros t Ht. apply (token_not_reserved texts). by apply first_seen_elem. }
  apply NoDup_cons. split.
  - rewrite not_elem_of_cons. split; [done|].
    intros Hin. by destruct (Hres _ Hin).
  - apply NoDup_cons. split; [|apply first_seen_NoDup].
    intros Hin. by destruct (Hres _ Hin).
Qed.

Lemma entries_frequent_NoDup (texts : list string) (min_freq : Z) :
  NoDup (entries texts min_freq).
Proof.
  pose proof (entries_NoDup texts min_freq) as Hnd.
  unfold entries, frequent.
  apply NoDup_cons in Hnd as [Hp Hnd]. apply NoDup_cons in Hnd as [Hu Hnd].
  rewrite not_elem_of_cons in Hp. destruct Hp as [Hpu Hp].
  apply NoDup_cons. split.
  - rewrite not_elem_of_cons. split; [done|].
    rewrite list_elem_of_filter. tauto.
  - apply NoDup_cons. split; [|by apply NoDup_filter].
    rewrite list_elem_of_filter. tauto.
Qed.

(** [build_vocab] computes the indexed list of the reserved tokens followed
    by the frequent tokens in first-seen order. *)
Lemma build_vocab_indexed (texts : list string) (min_freq : Z) :
  build_vocab texts min_freq = indexed (entries texts min_freq).
Proof.
  unfold build_vocab. rewrite count_words_spec, reserved_indexed.
  rewrite add_token_fold by apply (entries_NoDup texts min_freq). done.
Qed.

(** ** The vocabulary returned by [build_vocab] *)

Lemma build_vocab_lookup (texts : list string) (min_freq : Z) (t : string) (i : Z) :
  build_vocab texts min_freq !! t = Some i
  ↔ ∃ k : nat, entries texts min_freq !! k = Some t ∧ i = Z.of_nat k.
Proof.
  rewrite build_vocab_indexed.
  apply indexed_lookup, entries_frequent_NoDup.
Qed.

Lemma build_vocab_len (texts : list string) (min_freq : Z) :
  dict_len (build_vocab texts min_freq) = len (entries texts min_freq).
Proof.
  rewrite build_vocab_indexed.
  apply indexed_size, entries_frequent_NoDup.
Qed.

Lemma build_vocab_values (texts : list string) (min_freq : Z) (t : string) (i : Z) :
  build_vocab texts min_freq !! t = Some i →
  0 ≤ i < dict_len (build_vocab texts min_freq).
Proof.
  rewrite build_vocab_len, build_vocab_lookup. intros (k & Hk & ->).
  apply lookup_lt_Some in Hk. unfold len. lia.
Qed.

Lemma build_vocab_unk (texts : list string) (min_freq : Z) :
  build_vocab texts min_freq !! "<unk>" = Some 1.
Proof. apply build_vocab_lookup. by exists 1%nat. Qed.

(** C2. Every vocabulary returned by [build_vocab] maps ["<pad>"] to 0 and
    ["<unk>"] to 1, gives no index to two entries, and uses exactly the
    indices [0 .. size-1]; an empty collection gives the two reserved entries
    only. *)
Theorem build_vocab_reserved_contiguous (texts : list string) (min_freq : Z) :
  let vocab := build_vocab texts min_freq in
  vocab !! "<pad>" = Some 0
  ∧ vocab !! "<unk>" = Some 1
  ∧ (∀ t1 t2 i, vocab !! t1 = Some i → vocab !! t2 = Some i → t1 = t2)
  ∧ (∀ i, (∃ t, vocab !! t = Some i) ↔ 0 ≤ i < dict_len vocab)
  ∧ build_vocab [] min_freq = reserved.
Proof.
  intros vocab. subst vocab. split_and!.
  - apply build_vocab_lookup. by exists 0%nat.
  - apply build_vocab_unk.
  - intros t1 t2 i (k1 & Hk1 & ->)%build_vocab_lookup
                   (k2 & Hk2 & Heq)%build_vocab_lookup.
    assert (k1 = k2) as -> by lia. congruence.
  - intros i. split.
    + intros [t Ht]. by eapply build_vocab_values.
    + rewrite build_vocab_len. unfold len. intros [H0 Hlt].
      destruct (lookup_lt_is_Some_2 (entries texts min_freq) (Z.to_nat i))
        as [t Ht]; [lia|].
      exists t. apply build_vocab_lookup. exists (Z.to_nat i). split; [done|lia].
  - rewrite build_vocab_indexed. symmetry. apply reserved_indexed.
Qed.

Lemma build_vocab_reserved_contiguous_witness :
  ∃ t, build_vocab ["Hello world"; "hello"] 2 !! t = Some 2.
Proof.
  apply (build_vocab_reserved_contiguous ["Hello world"; "hello"] 2).
  vm_compute. split; [discriminate|reflexivity].
Defined.

(** ** The encoder *)

Lemma comprehension_unk (vocab : gmap string Z) (tokens : list string) (u : Z) :
  vocab !! "<unk>" = Some u →
  comprehension vocab tokens = Ok ((λ t, default u (vocab !! t)) <$> tokens).
Proof.
  intros Hu. induction tokens as [|t tokens IH]; csimpl; [done|].
  unfold getitem. rewrite Hu. csimpl. rewrite IH. done.
Qed.

Lemma comprehension_no_tokens (vocab : gmap string Z) :
  comprehension vocab [] = Ok [].
Proof. done. Qed.

Lemma comprehension_KeyError (vocab : gmap string Z) (t : string) (tokens : list string) :
  vocab !! "<unk>" = None →
  comprehension vocab (t :: tokens) = Raise (KeyError "<unk>").
Proof. intros Hu. csimpl. unfold getitem. by rewrite Hu. Qed.

Lemma pad_sequence_short (sequence : list Z) (max_length : Z) :
  len sequence < max_length →
  pad_sequence sequence max_length
  = sequence ++ replicate (Z.to_nat (max_length - len sequence)) 0.
Proof.
  intros Hlt. unfold pad_sequence.
  by rewrite (proj2 (Z.ltb_lt _ _) Hlt).
Qed.

Lemma pad_sequence_long (sequence : list Z) (max_length : Z) :
  0 ≤ max_length → max_length ≤ len sequence →
  pad_sequence sequence max_length = take (Z.to_nat max_length) sequence.
Proof.
  intros H0 Hle. unfold pad_sequence, slice_to.
  rewrite (proj2 (Z.ltb_ge _ _) Hle). by rewrite (proj2 (Z.ltb_ge _ _) H0).
Qed.

Lemma pad_sequence_length (sequence : list Z) (max_length : Z) :
  0 ≤ max_length → len (pad_sequence sequence max_length) = max_length.
Proof.
  intros H0. destruct (Z_lt_le_dec (len sequence) max_length) as [Hlt|Hle].
  - rewrite pad_sequence_short by done. unfold len in *.
    rewrite length_app, length_replicate. lia.
  - rewrite pad_sequence_long by done. unfold len in *.
    rewrite length_take. lia.
Qed.

(** Padding and slicing keep a property that the padding index has. *)
Lemma pad_sequence_Forall (P : Z → Prop) (sequence : list Z) (max_length : Z) :
  P 0 → Forall P sequence → Forall P (pad_sequence sequence max_length).
Proof.
  intros HP Hseq. unfold pad_sequence, slice_to, repeat_list.
  destruct (len sequence <? max_length).
  - apply Forall_app. split; [done|]. by apply Forall_replicate.
  - destruct (max_length <? 0); by apply Forall_take.
Qed.

Lemma encode_unk (text : string) (vocab : gmap string Z) (max_len u : Z) :
  vocab !! "<unk>" = Some u →
  encode text vocab max_len
  = Ok (pad_sequence ((λ t, default u (vocab !! t)) <$> simple_tokenizer text)
                     max_len).
Proof.
  intros Hu. unfold encode, text_to_sequence.
  by rewrite (comprehension_unk _ _ u Hu).
Qed.

(** C1, outside the domain of the encoder. At a negative [max_len] the
    slice drops the last entry and the result has length 2; with a
    vocabulary that lacks ["<unk>"] the first token raises [KeyError]. *)
Lemma encode_negative_max_len :
  (encode "Hello Bob World" example_vocab (-1) = Ok [2; 1]
   ∧ len [2; 1] ≠ -1)
  ∧ encode "Hello Bob World" (<["hello" := 2]> ∅) 5 = Raise (KeyError "<unk>").
Proof. split; [split; [vm_compute; reflexivity|discriminate]|]. vm_compute. reflexivity. Qed.

(** C1, amended. For every text, every vocabulary that holds ["<unk>"] at
    index 1 and every [max_len >= 0], the encoder returns the indices of the
    tokens, 1 standing for a token absent from the vocabulary, cut to the
    first [max_len] entries if there are that many and padded on the right
    with 0 otherwise; the result has length [max_len]. On
    ["Hello Bob World"] and the vocabulary of the docstring it returns
    [[2,1,3,0,0]] for [max_len = 5] and [[2,1]] for [max_len = 2]. *)
Theorem encode_truncates_or_pads (text : string) (vocab : gmap string Z)
    (max_len : Z) :
  vocab !! "<unk>" = Some 1 → 0 ≤ max_len →
  let indices := (λ t, default 1 (vocab !! t)) <$> simple_tokenizer text in
  ∃ sequence,
    encode text vocab max_len = Ok sequence
    ∧ len sequence = max_len
    ∧ (max_len ≤ len indices → sequence = take (Z.to_nat max_len) indices)
    ∧ (len indices < max_len →
       sequence = indices ++ replicate (Z.to_nat (max_len - len indices)) 0)
    ∧ encode "Hello Bob World" example_vocab 5 = Ok [2; 1; 3; 0; 0]
    ∧ encode "Hello Bob World" example_vocab 2 = Ok [2; 1].
Proof.
  intros Hu H0 indices. eexists. split; [by apply encode_unk|].
  fold indices. split_and!.
  - by apply pad_sequence_length.
  - intros Hle. by apply pad_sequence_long.
  - intros Hlt. by apply pad_sequence_short.
  - vm_compute. reflexivity.
  - vm_compute. reflexivity.
Qed.

Lemma encode_truncates_or_pads_witness :
  ∃ sequence,
    encode "Hello Bob World" example_vocab 5 = Ok sequence
    ∧ len sequence = 5.
Proof.
  destruct (encode_truncates_or_pads "Hello Bob World" example_vocab 5)
    as (sequence & Henc & Hlen & _).
  - vm_compute. reflexivity.
  - lia.
  - exists sequence. by split.
Defined.

(** ** Frequency filter and order of the indices *)

Lemma occurrences_nonneg (t : string) (tokens : list string) :
  0 ≤ occurrences t tokens.
Proof. induction tokens as [|x tokens IH]; simpl; [lia|]. case_decide; lia. Qed.

Lemma occurrences_elem (t : string) (tokens : list string) :
  t ∈ tokens ↔ 1 ≤ occurrences t tokens.
Proof.
  induction tokens as [|x tokens IH]; simpl.
  - split; [by intros ?%elem_of_nil|lia].
  - rewrite elem_of_cons, IH.
    pose proof (occurrences_nonneg t tokens).
    destruct (decide (x = t)) as [->|Hne]; [|split; [intros [->|]|]; [done|lia..]].
    split; [lia|by left].
Qed.

Lemma build_vocab_is_Some (texts : list string) (min_freq : Z) (t : string) :
  is_Some (build_vocab texts min_freq !! t) ↔ t ∈ entries texts min_freq.
Proof. rewrite build_vocab_indexed. apply indexed_is_Some. Qed.

(** C3, at [min_freq = 0] and a token that never occurs: its count, 0,
    reaches the threshold, and it is not in the vocabulary. *)
Lemma build_vocab_absent_token :
  ¬ (is_Some (build_vocab [] 0 !! "hello")
     ↔ 0 ≤ occurrences "hello" (all_tokens [])).
Proof.
  intros [_ Hin]. destruct Hin as [i Hi]; [done|].
  vm_compute in Hi. discriminate Hi.
Qed.

(** C3, amended. A token other than the two reserved ones is in the
    vocabulary returned by [build_vocab] if and only if it occurs in the
    collection and its number of occurrences is at least [min_freq]; for
    [min_freq >= 1] the occurrence follows from the count. The [k]-th such
    token, counted from 0 in the order of first occurrence, has index
    [2 + k]: the vocabulary is the indexed list of the reserved tokens
    followed by these tokens. *)
Theorem build_vocab_frequency (texts : list string) (min_freq : Z) :
  let vocab := build_vocab texts min_freq in
  let tokens := all_tokens texts in
  (∀ t, t ≠ "<pad>" → t ≠ "<unk>" →
     (is_Some (vocab !! t) ↔ t ∈ tokens ∧ min_freq ≤ occurrences t tokens))
  ∧ (1 ≤ min_freq → ∀ t, t ≠ "<pad>" → t ≠ "<unk>" →
     (is_Some (vocab !! t) ↔ min_freq ≤ occurrences t tokens))
  ∧ (∀ (k : nat) t,
       filter (λ t, min_freq ≤ occurrences t tokens) (first_seen tokens) !! k
       = Some t →
       vocab !! t = Some (2 + Z.of_nat k))
  ∧ vocab = indexed ("<pad>" :: "<unk>" :: frequent texts min_freq).
Proof.
  intros vocab tokens. subst vocab tokens.
  assert (Hiff : ∀ t, t ≠ "<pad>" → t ≠ "<unk>" →
    (is_Some (build_vocab texts min_freq !! t)
     ↔ t ∈ all_tokens texts ∧ min_freq ≤ occurrences t (all_tokens texts))).
  { intros t Hp Hu. rewrite build_vocab_is_Some. unfold entries.
    rewrite !elem_of_cons, frequent_elem. tauto. }
  split_and!.
  - exact Hiff.
  - intros H1 t Hp Hu. rewrite (Hiff t Hp Hu), occurrences_elem. lia.
  - intros k t Hk. apply build_vocab_lookup. exists (S (S k)).
    split; [exact Hk|lia].
  - apply build_vocab_indexed.
Qed.

Lemma build_vocab_frequency_witness :
  is_Some (build_vocab ["Hello world"; "hello"] 2 !! "hello")
  ∧ build_vocab ["Hello world"; "hello"] 2 !! "hello" = Some 2.
Proof.
  destruct (build_vocab_frequency ["Hello world"; "hello"] 2)
    as (Hiff & _ & Hidx & _).
  split.
  - apply Hiff; [discriminate..|]. split; [|vm_compute; discriminate].
    vm_compute. repeat constructor.
  - apply (Hidx 0%nat "hello"). vm_compute. reflexivity.
Defined.

(** ** Monotonicity in the threshold *)

(** C10. For thresholds [min_freq <= min_freq'], every token of
    [build_vocab texts min_freq'] is a token of [build_vocab texts min_freq],
    and both vocabularies hold the two reserved tokens. *)
Theorem build_vocab_antitone (texts : list string) (min_freq min_freq' : Z) :
  min_freq ≤ min_freq' →
  dom (build_vocab texts min_freq') ⊆ dom (build_vocab texts min_freq)
  ∧ "<pad>" ∈ dom (build_vocab texts min_freq)
  ∧ "<unk>" ∈ dom (build_vocab texts min_freq)
  ∧ "<pad>" ∈ dom (build_vocab texts min_freq')
  ∧ "<unk>" ∈ dom (build_vocab texts min_freq').
Proof.
  intros Hle.
  assert (Hres : ∀ mf, "<pad>" ∈ dom (build_vocab texts mf)
                       ∧ "<unk>" ∈ dom (build_vocab texts mf)).
  { intros mf. rewrite !elem_of_dom, !build_vocab_is_Some. unfold entries.
    rewrite !elem_of_cons. tauto. }
  split; [|by destruct (Hres min_freq), (Hres min_freq')].
  intros t. rewrite !elem_of_dom, !build_vocab_is_Some. unfold entries.
  rewrite !elem_of_cons, !frequent_elem. intros [?|[?|[? ?]]]; [tauto..|].
  right. right. split; [done|lia].
Qed.

Lemma build_vocab_antitone_witness :
  dom (build_vocab ["Hello world"; "hello"] 2)
  ⊆ dom (build_vocab ["Hello world"; "hello"] 1).
Proof.
  apply (build_vocab_antitone ["Hello world"; "hello"] 1 2). lia.
Defined.

(** ** The dataset *)

Lemma subscript_positional {A : Type} (c : collection A) (idx : Z) :
  subscript c idx = positional (contents c) idx.
Proof. by destruct c. Qed.

Lemma positional_in_range {A : Type} (l : list A) (idx : Z) :
  0 ≤ idx < len l →
  ∃ x, l !! Z.to_nat idx = Some x ∧ positional l idx = Ok x.
Proof.
  intros [H0 Hlt]. unfold positional.
  rewrite (proj2 (Z.ltb_ge _ _) H0).
  rewrite (proj2 (Z.leb_le _ _) H0), (proj2 (Z.ltb_lt _ _) Hlt). simpl.
  destruct (lookup_lt_is_Some_2 l (Z.to_nat idx)) as [x Hx].
  { unfold len in Hlt. lia. }
  exists x. by rewrite Hx.
Qed.

Lemma positional_negative {A : Type} (l : list A) (idx : Z) :
  - len l ≤ idx < 0 → positional l idx = positional l (idx + len l).
Proof.
  intros [Hge Hlt]. unfold positional.
  rewrite (proj2 (Z.ltb_lt _ _) Hlt).
  by rewrite (proj2 (Z.ltb_ge (idx + len l) 0)) by lia.
Qed.

Lemma positional_out_of_range {A : Type} (l : list A) (idx : Z) :
  idx < - len l ∨ len l ≤ idx → positional l idx = Raise IndexError.
Proof.
  intros Hout. unfold positional.
  assert (Hlen : 0 ≤ len l) by (unfold len; lia).
  destruct (Z.ltb_spec idx 0).
  - rewrite (proj2 (Z.leb_gt 0 (idx + len l))) by lia. done.
  - rewrite (proj2 (Z.ltb_ge idx (len l))) by lia. by rewrite andb_false_r.
Qed.

Lemma fits_long_spec (z : Z) : fits_long z = true ↔ - 2 ^ 63 ≤ z < 2 ^ 63.
Proof. unfold fits_long. rewrite andb_true_iff, Z.leb_le, Z.ltb_lt. done. Qed.

Example fits_long_bounds :
  fits_long (- 9223372036854775808) = true
  ∧ fits_long 9223372036854775807 = true
  ∧ fits_long 9223372036854775808 = false
  ∧ fits_long (- 9223372036854775809) = false.
Proof. by split_and!. Qed.

Lemma tensor_long_fits (l : list Z) :
  Forall (λ z, fits_long z = true) l → tensor_long l = Ok l.
Proof.
  intros Hl. unfold tensor_long.
  by rewrite (proj2 (forallb_forall _ _))
    by (intros z Hz; by apply (proj1 (Forall_forall _ _) Hl), list_elem_of_In).
Qed.

Lemma tensor_long_Ok (l t : list Z) : tensor_long l = Ok t → t = l.
Proof. unfold tensor_long. destruct (forallb fits_long l); congruence. Qed.

Lemma tensor_long_error (l : list Z) (e : exn) :
  tensor_long l = Raise e → e = ConversionError.
Proof. unfold tensor_long. destruct (forallb fits_long l); congruence. Qed.

Lemma tensor_long_label_Ok (x : option Z) (z : Z) :
  tensor_long_label x = Ok z ↔ x = Some z ∧ fits_long z = true.
Proof.
  unfold tensor_long_label. destruct x as [y|]; [|by split; [|intros [? _]]].
  destruct (fits_long y) eqn:Hy; split.
  - by intros [= ->].
  - by intros [[= ->] _].
  - done.
  - intros [[= ->] ?]. congruence.
Qed.

Lemma tensor_long_label_error (x : option Z) (e : exn) :
  tensor_long_label x = Raise e → e = ConversionError ∧ ¬ long_label x.
Proof.
  unfold tensor_long_label, long_label. destruct x as [y|].
  - destruct (fits_long y) eqn:Hy; [done|]. intros [= <-]. split; [done|].
    intros (z & [= ->] & ?). congruence.
  - intros [= <-]. split; [done|]. by intros (z & ? & _).
Qed.

(** A retrieval at a position of [[0, size)]: the text and the label at that
    position, the text encoded, both made tensors. *)
Lemma dataset_getitem_in_range (self : TweetDataset) (idx : Z) :
  len (contents (texts self)) = len (contents (labels self)) →
  0 ≤ idx < dataset_len self →
  ∃ text label_item,
    contents (texts self) !! Z.to_nat idx = Some text
    ∧ contents (labels self) !! Z.to_nat idx = Some label_item
    ∧ dataset_getitem self idx
      = (sequence ← encode text (vocab self) (max_len self) ;
         input_ids ← tensor_long sequence ;
         label ← tensor_long_label label_item ;
         Ok (input_ids, label)).
Proof.
  intros Hlen Hidx. unfold dataset_len in Hidx.
  destruct (positional_in_range (contents (texts self)) idx Hidx)
    as (text & Htext & Hpt).
  destruct (positional_in_range (contents (labels self)) idx)
    as (label & Hlabel & Hpl); [by rewrite <- Hlen|].
  exists text, label. split_and!; [done..|].
  unfold dataset_getitem. rewrite !subscript_positional, Hpt, Hpl. csimpl.
  unfold encode. by destruct (text_to_sequence text (vocab self)).
Qed.

Lemma dataset_getitem_negative (self : TweetDataset) (idx : Z) :
  len (contents (texts self)) = len (contents (labels self)) →
  - dataset_len self ≤ idx < 0 →
  dataset_getitem self idx = dataset_getitem self (idx + dataset_len self).
Proof.
  intros Hlen Hidx. unfold dataset_getitem, dataset_len in *.
  rewrite !subscript_positional.
  rewrite (positional_negative (contents (texts self))) by done.
  rewrite (positional_negative (contents (labels self))) by (by rewrite <- Hlen).
  by rewrite Hlen.
Qed.

Lemma dataset_getitem_out_of_range (self : TweetDataset) (idx : Z) :
  idx < - dataset_len self ∨ dataset_len self ≤ idx →
  dataset_getitem self idx = Raise IndexError.
Proof.
  intros Hidx. unfold dataset_getitem, dataset_len in *.
  rewrite !subscript_positional. by rewrite (positional_out_of_range _ _ Hidx).
Qed.

(** C7, at the position [-1] of a dataset of one sample: it is outside
    [[0, 1)], and the retrieval returns the last sample. *)
Lemma dataset_getitem_minus_one :
  dataset_getitem
    {| texts := PyList ["Hello world"]; labels := PyList [Some 1];
       vocab := example_vocab; max_len := 3 |} (-1)
  = Ok ([2; 3; 0], 1).
Proof. vm_compute. reflexivity. Qed.

(** C7, amended. For a dataset whose texts and labels have the same length,
    whose labels are integers of the range of [int64], none missing, whose
    vocabulary holds ["<unk>"] and only indices of that range, and whose
    [max_len] is not negative: the size is the length of the texts; a
    retrieval at a position of [[0, size)] returns the encoded text of that
    position, of length [max_len], with the label of that position; a
    position of [[-size, 0)] stands for the position [size] further; a
    retrieval at any position outside [[-size, size)] raises [IndexError]. *)
Theorem dataset_retrieval (self : TweetDataset) :
  len (contents (texts self)) = len (contents (labels self)) →
  Forall long_label (contents (labels self)) →
  is_Some (vocab self !! "<unk>") →
  (∀ t i, vocab self !! t = Some i → fits_long i = true) →
  0 ≤ max_len self →
  dataset_len self = len (contents (texts self))
  ∧ (∀ idx, 0 ≤ idx < dataset_len self →
       ∃ text label sequence,
         contents (texts self) !! Z.to_nat idx = Some text
         ∧ contents (labels self) !! Z.to_nat idx = Some (Some label)
         ∧ encode text (vocab self) (max_len self) = Ok sequence
         ∧ len sequence = max_len self
         ∧ dataset_getitem self idx = Ok (sequence, label))
  ∧ (∀ idx, - dataset_len self ≤ idx < 0 →
       dataset_getitem self idx = dataset_getitem self (idx + dataset_len self))
  ∧ (∀ idx, idx < - dataset_len self ∨ dataset_len self ≤ idx →
       dataset_getitem self idx = Raise IndexError).
Proof.
  intros Hlen Hlabels [u Hu] Hvocab Hmax. split_and!.
  - done.
  - intros idx Hidx.
    destruct (dataset_getitem_in_range self idx Hlen Hidx)
      as (text & label_item & Htext & Hlabel & Hget).
    destruct (proj1 (Forall_lookup _ _) Hlabels _ _ Hlabel)
      as (label & -> & Hfits).
    rewrite (encode_unk _ _ _ u Hu) in Hget. csimpl in Hget.
    rewrite tensor_long_fits in Hget.
    + csimpl in Hget. rewrite Hfits in Hget.
      exists text, label. eexists. split_and!; [done..| | |exact Hget].
      * by apply encode_unk.
      * by apply pad_sequence_length.
    + apply pad_sequence_Forall; [done|].
      apply Forall_fmap, Forall_forall. intros t _. simpl.
      destruct (vocab self !! t) as [i|] eqn:Hi; simpl; by eapply Hvocab.
  - intros idx Hidx. by apply dataset_getitem_negative.
  - intros idx Hidx. by apply dataset_getitem_out_of_range.
Qed.

Lemma dataset_retrieval_witness :
  dataset_getitem
    {| texts := PyList ["Hello world"]; labels := PyList [Some 1];
       vocab := example_vocab; max_len := 3 |} 1
  = Raise IndexError.
Proof.
  apply (dataset_retrieval
    {| texts := PyList ["Hello world"]; labels := PyList [Some 1];
       vocab := example_vocab; max_len := 3 |}).
  - reflexivity.
  - repeat constructor. by exists 1.
  - vm_compute. by eexists.
  - intros t i Hi. apply fits_long_spec. simpl in Hi. unfold example_vocab in Hi.
    repeat (apply lookup_insert_Some in Hi as [[_ <-]|[_ Hi]]; [lia|]).
    by rewrite lookup_empty in Hi.
  - simpl. lia.
  - right. vm_compute. discriminate.
Defined.

(** ** Range of the encoded indices *)

Lemma build_vocab_len_ge_2 (texts : list string) (min_freq : Z) :
  2 ≤ dict_len (build_vocab texts min_freq).
Proof. rewrite build_vocab_len. unfold len, entries. simpl length. lia. Qed.

Lemma build_vocab_default_in_range (texts : list string) (min_freq : Z) (t : string) :
  0 ≤ default 1 (build_vocab texts min_freq !! t)
    < dict_len (build_vocab texts min_freq).
Proof.
  destruct (build_vocab texts min_freq !! t) as [i|] eqn:Hi; simpl.
  - by eapply build_vocab_values.
  - pose proof (build_vocab_len_ge_2 texts min_freq). lia.
Qed.

Lemma encode_build_vocab (corpus : list string) (min_freq : Z)
    (text : string) (max_len : Z) :
  ∃ sequence,
    encode text (build_vocab corpus min_freq) max_len = Ok sequence
    ∧ Forall (λ i, 0 ≤ i < dict_len (build_vocab corpus min_freq)) sequence.
Proof.
  eexists. split; [apply encode_unk, build_vocab_unk|].
  apply pad_sequence_Forall.
  - pose proof (build_vocab_len_ge_2 corpus min_freq). lia.
  - apply Forall_fmap, Forall_forall. intros t _. simpl.
    apply build_vocab_default_in_range.
Qed.

(** C9. With a vocabulary returned by [build_vocab], the encoder succeeds
    on every text, and every entry of every sequence that [__getitem__]
    returns is an index of [[0, len(vocab))]; [__getitem__] returns such a
    sequence at every position of [[-size, size)] of a dataset whose texts
    and labels have the same length, whose labels are integers of the
    range of [int64] and whose vocabulary has at most [2^63] entries. *)
Theorem dataset_indices_in_vocab (corpus : list string) (min_freq : Z)
    (self : TweetDataset) (idx : Z) :
  vocab self = build_vocab corpus min_freq →
  (∀ text max_len, ∃ sequence,
     encode text (vocab self) max_len = Ok sequence
     ∧ Forall (λ i, 0 ≤ i < dict_len (vocab self)) sequence)
  ∧ (∀ sequence label,
       dataset_getitem self idx = Ok (sequence, label) →
       Forall (λ i, 0 ≤ i < dict_len (vocab self)) sequence)
  ∧ (len (contents (texts self)) = len (contents (labels self)) →
     Forall long_label (contents (labels self)) →
     dict_len (vocab self) ≤ 2 ^ 63 →
     - dataset_len self ≤ idx < dataset_len self →
     ∃ sequence label,
       dataset_getitem self idx = Ok (sequence, label)
       ∧ Forall (λ i, 0 ≤ i < dict_len (vocab self)) sequence).
Proof.
  intros Hvocab.
  assert (Henc : ∀ text max_len, ∃ sequence,
     encode text (vocab self) max_len = Ok sequence
     ∧ Forall (λ i, 0 ≤ i < dict_len (vocab self)) sequence).
  { intros text n. rewrite Hvocab. apply encode_build_vocab. }
  assert (Hin : ∀ i, len (contents (texts self)) = len (contents (labels self)) →
     Forall long_label (contents (labels self)) →
     dict_len (vocab self) ≤ 2 ^ 63 →
     0 ≤ i < dataset_len self →
     ∃ sequence label,
       dataset_getitem self i = Ok (sequence, label)
       ∧ Forall (λ i, 0 ≤ i < dict_len (vocab self)) sequence).
  { intros i Hlen Hlabels Hsize Hi.
    destruct (dataset_getitem_in_range self i Hlen Hi)
      as (text & label_item & _ & Hlabel & Hget).
    destruct (proj1 (Forall_lookup _ _) Hlabels _ _ Hlabel)
      as (label & -> & Hfits).
    destruct (Henc text (max_len self)) as (sequence & Hs & Hall).
    exists sequence, label. rewrite Hget, Hs. csimpl.
    rewrite tensor_long_fits.
    - csimpl. by rewrite Hfits.
    - eapply Forall_impl; [exact Hall|]. intros z Hz. simpl in Hz.
      apply fits_long_spec. lia. }
  split_and!.
  - exact Henc.
  - intros sequence label. unfold dataset_getitem.
    destruct (subscript (texts self) idx) as [text|]; [|done].
    destruct (subscript (labels self) idx) as [lab|]; [|done]. csimpl.
    destruct (Henc text (max_len self)) as (sequence' & Hs & Hall).
    unfold encode in Hs.
    destruct (text_to_sequence text (vocab self)) as [raw|]; [|done].
    csimpl in *. injection Hs as <-.
    destruct (tensor_long (pad_sequence raw (max_len self)))
      as [input_ids|] eqn:Hids; [|done].
    apply tensor_long_Ok in Hids as ->. csimpl.
    destruct (tensor_long_label lab); [|done]. csimpl. by intros [= <- _].
  - intros Hlen Hlabels Hsize Hidx. destruct (Z.ltb_spec idx 0).
    + rewrite dataset_getitem_negative by (done || lia).
      apply Hin; [done..|lia].
    + apply Hin; [done..|lia].
Qed.

Lemma dataset_indices_in_vocab_witness :
  ∃ sequence label,
    dataset_getitem
      {| texts := PyList ["Hello there world"]; labels := PyList [Some 1];
         vocab := build_vocab ["Hello world"; "hello"] 2; max_len := 4 |} 0
    = Ok (sequence, label)
    ∧ Forall (λ i, 0 ≤ i < dict_len (build_vocab ["Hello world"; "hello"] 2))
             sequence.
Proof.
  apply (dataset_indices_in_vocab ["Hello world"; "hello"] 2
    {| texts := PyList ["Hello there world"]; labels := PyList [Some 1];
       vocab := build_vocab ["Hello world"; "hello"] 2; max_len := 4 |} 0).
  - reflexivity.
  - reflexivity.
  - repeat constructor. by exists 1.
  - vm_compute. discriminate.
  - vm_compute. split; [discriminate|reflexivity].
Defined.

(** ** The training loop *)

Section train_loop.
Context `{Framework}.

Lemma train_pass_length (st : State) (batches : list (list (list Z) * list Z)) :
  len (train_pass st batches).1 = len batches.
Proof.
  revert st. induction batches as [|[ids labs] batches IH]; intros st; [done|].
  simpl. destruct (model_call (zero_grad st) ids) as [outputs st1].
  specialize (IH (step (backward (criterion outputs labs) st1))).
  destruct (train_pass _ batches) as [losses st2]. simpl in *.
  unfold len in *. simpl. lia.
Qed.

Lemma val_pass_length (st : State) (batches : list (list (list Z) * list Z)) :
  len (val_pass st batches).1 = len batches.
Proof.
  revert st. induction batches as [|[ids labs] batches IH]; intros st; [done|].
  simpl. destruct (model_call st ids) as [outputs st1].
  specialize (IH st1).
  destruct (val_pass _ batches) as [losses st2]. simpl in *.
  unfold len in *. simpl. lia.
Qed.

(** The running sum of the training pass is the sum of its losses. *)
Lemma foldl_train_batch (st : State) (acc : float)
    (batches : list (list (list Z) * list Z)) :
  foldl train_batch (st, acc) batches
  = ((train_pass st batches).2, foldl PrimFloat.add acc (train_pass st batches).1).
Proof.
  revert st acc. induction batches as [|[ids labs] batches IH]; intros st acc.
  - done.
  - simpl. destruct (model_call (zero_grad st) ids) as [outputs st1].
    rewrite IH.
    by destruct (train_pass (step (backward (criterion outputs labs) st1)) batches).
Qed.

Lemma foldl_val_batch (st : State) (acc : float)
    (batches : list (list (list Z) * list Z)) :
  foldl val_batch (st, acc) batches
  = ((val_pass st batches).2, foldl PrimFloat.add acc (val_pass st batches).1).
Proof.
  revert st acc. induction batches as [|[ids labs] batches IH]; intros st acc.
  - done.
  - simpl. destruct (model_call st ids) as [outputs st1].
    rewrite IH. by destruct (val_pass st1 batches).
Qed.

Lemma truediv_nonzero (x : float) (n : Z) :
  n ≠ 0 → truediv x n = Ok (PrimFloat.div x (float_of_Z n)).
Proof. intros Hn. unfold truediv. by rewrite (proj2 (Z.eqb_neq _ _) Hn). Qed.

Lemma truediv_zero (x : float) : truediv x 0 = Raise ZeroDivisionError.
Proof. done. Qed.

(** One round appends to each history the mean of its per-batch losses. *)
Lemma epoch_appends_means (train_loader val_loader : DataLoader)
    (st : State) (train_losses val_losses : list float) :
  consistent train_loader → consistent val_loader →
  loader_len train_loader ≠ 0 → loader_len val_loader ≠ 0 →
  epoch train_loader val_loader (st, train_losses, val_losses)
  = let '(tl, vl, st') := round_losses train_loader val_loader st in
    Ok (st', train_losses ++ [mean tl], val_losses ++ [mean vl]).
Proof.
  intros Htc Hvc Htn Hvn. unfold epoch, round_losses.
  pose proof (Htc (model_train st)) as Htlen.
  destruct (loader_iter train_loader (model_train st)) as [tb st1].
  rewrite foldl_train_batch.
  pose proof (train_pass_length st1 tb) as Htp.
  destruct (train_pass st1 tb) as [tl st2]. simpl in Htlen, Htp |- *.
  rewrite truediv_nonzero by done. csimpl.
  pose proof (Hvc (no_grad_enter (model_eval st2))) as Hvlen.
  destruct (loader_iter val_loader (no_grad_enter (model_eval st2))) as [vb st3].
  rewrite foldl_val_batch.
  pose proof (val_pass_length st3 vb) as Hvp.
  destruct (val_pass st3 vb) as [vl st4]. simpl in Hvlen, Hvp |- *.
  rewrite truediv_nonzero by done. csimpl.
  unfold mean. by rewrite Htp, Htlen, Hvp, Hvlen.
Qed.

Lemma for_range_S (n : nat) (train_loader val_loader : DataLoader)
    (acc : State * list float * list float) :
  for_range (S n) train_loader val_loader acc
  = (acc' ← epoch train_loader val_loader acc ;
     for_range n train_loader val_loader acc').
Proof. done. Qed.

Lemma for_range_histories (n : nat) (train_loader val_loader : DataLoader)
    (st : State) (train_losses val_losses : list float) :
  consistent train_loader → consistent val_loader →
  loader_len train_loader ≠ 0 → loader_len val_loader ≠ 0 →
  ∃ st',
    for_range n train_loader val_loader (st, train_losses, val_losses)
    = Ok (st',
          train_losses
            ++ ((λ r, mean r.1) <$> rounds n train_loader val_loader st),
          val_losses
            ++ ((λ r, mean r.2) <$> rounds n train_loader val_loader st)).
Proof.
  intros Htc Hvc Htn Hvn. revert st train_losses val_losses.
  induction n as [|n IH]; intros st train_losses val_losses.
  - exists st. simpl. by rewrite !app_nil_r.
  - rewrite for_range_S, epoch_appends_means by done. simpl rounds.
    destruct (round_losses train_loader val_loader st) as [[tl vl] st1].
    csimpl. destruct (IH st1 (train_losses ++ [mean tl]) (val_losses ++ [mean vl]))
      as [st' ->].
    exists st'. by rewrite <- !app_assoc.
Qed.

Lemma rounds_length (n : nat) (train_loader val_loader : DataLoader) (st : State) :
  length (rounds n train_loader val_loader st) = n.
Proof.
  revert st. induction n as [|n IH]; intros st; [done|]. simpl.
  destruct (round_losses train_loader val_loader st) as [[tl vl] st1].
  simpl. by rewrite IH.
Qed.

Lemma for_range_empty_source (n : nat) (train_loader val_loader : DataLoader)
    (acc : State * list float * list float) :
  loader_len train_loader = 0 ∨ loader_len val_loader = 0 →
  for_range (S n) train_loader val_loader acc = Raise ZeroDivisionError.
Proof.
  intros Hempty. destruct acc as [[st train_losses] val_losses].
  rewrite for_range_S. unfold epoch.
  destruct (loader_iter train_loader (model_train st)) as [tb st1].
  destruct (foldl train_batch (st1, 0%float) tb) as [st2 train_loss].
  destruct (decide (loader_len train_loader = 0)) as [Ht|Ht].
  { by rewrite Ht, truediv_zero. }
  rewrite truediv_nonzero by done. csimpl.
  destruct (loader_iter val_loader (no_grad_enter (model_eval st2))) as [vb st3].
  destruct (foldl val_batch (st3, 0%float) vb) as [st4 val_loss].
  destruct (decide (loader_len val_loader = 0)) as [Hv|Hv].
  { by rewrite Hv, truediv_zero. }
  by destruct Hempty.
Qed.

Lemma for_range_nonempty_sources (n : nat) (train_loader val_loader : DataLoader)
    (acc : State * list float * list float) :
  loader_len train_loader ≠ 0 → loader_len val_loader ≠ 0 →
  ∃ acc', for_range n train_loader val_loader acc = Ok acc'.
Proof.
  intros Ht Hv. revert acc. induction n as [|n IH]; intros acc.
  - by exists acc.
  - destruct acc as [[st train_losses] val_losses]. rewrite for_range_S.
    assert (∃ acc1, epoch train_loader val_loader (st, train_losses, val_losses)
                    = Ok acc1) as [acc1 ->].
    { unfold epoch.
      destruct (loader_iter train_loader (model_train st)) as [tb st1].
      destruct (foldl train_batch (st1, 0%float) tb) as [st2 train_loss].
      rewrite truediv_nonzero by done. csimpl.
      destruct (loader_iter val_loader (no_grad_enter (model_eval st2)))
        as [vb st3].
      destruct (foldl val_batch (st3, 0%float) vb) as [st4 val_loss].
      rewrite truediv_nonzero by done. csimpl. by eexists. }
    apply IH.
Qed.

(** C4. For an epoch count [epochs >= 0] and loaders that yield a positive
    number of batches, [train_model] runs [epochs] rounds and returns the
    two histories, each of length [epochs]: the entries of round [k] are
    the mean of the per-batch training losses and the mean of the per-batch
    validation losses of that round. Every round appends one value to each
    history. *)
Theorem train_model_histories (st : State) (train_loader val_loader : DataLoader)
    (epochs : Z) :
  consistent train_loader → consistent val_loader →
  0 < loader_len train_loader → 0 < loader_len val_loader →
  0 ≤ epochs →
  let R := rounds (Z.to_nat epochs) train_loader val_loader st in
  (∃ st',
     train_model st train_loader val_loader epochs
     = Ok ((λ r, mean r.1) <$> R, (λ r, mean r.2) <$> R, st'))
  ∧ len R = epochs
  ∧ len ((λ r, mean r.1) <$> R) = epochs
  ∧ len ((λ r, mean r.2) <$> R) = epochs
  ∧ (∀ st train_losses val_losses, ∃ st' tl vl,
       round_losses train_loader val_loader st = (tl, vl, st')
       ∧ epoch train_loader val_loader (st, train_losses, val_losses)
         = Ok (st', train_losses ++ [mean tl], val_losses ++ [mean vl])).
Proof.
  intros Htc Hvc Htn Hvn Hep R.
  assert (HR : len R = epochs).
  { unfold len, R. rewrite rounds_length. lia. }
  split_and!.
  - unfold train_model.
    destruct (for_range_histories (Z.to_nat epochs) train_loader val_loader
                st [] []) as [st' ->]; [done|done|lia|lia|].
    by exists st'.
  - done.
  - unfold len in *. by rewrite length_fmap.
  - unfold len in *. by rewrite length_fmap.
  - intros st0 train_losses val_losses.
    rewrite epoch_appends_means by (done || lia).
    destruct (round_losses train_loader val_loader st0) as [[tl vl] st'].
    by exists st', tl, vl.
Qed.

(** C6, amended. When a loader announces no batch and [epochs >= 1], the
    first division of the averaging raises [ZeroDivisionError] and no loss
    is returned; the code has no other error for this case. When both
    loaders announce a batch, [train_model] returns; it also returns, with
    empty histories, when [epochs <= 0], whatever the loaders. *)
Theorem train_model_empty_source (st : State)
    (train_loader val_loader : DataLoader) (epochs : Z) :
  (1 ≤ epochs →
   loader_len train_loader = 0 ∨ loader_len val_loader = 0 →
   train_model st train_loader val_loader epochs = Raise ZeroDivisionError)
  ∧ (loader_len train_loader ≠ 0 → loader_len val_loader ≠ 0 →
     ∃ histories, train_model st train_loader val_loader epochs = Ok histories)
  ∧ (epochs ≤ 0 →
     train_model st train_loader val_loader epochs = Ok ([], [], st)).
Proof.
  split_and!.
  - intros Hep Hempty. unfold train_model.
    destruct (Z.to_nat epochs) as [|n] eqn:Hn; [lia|].
    by rewrite for_range_empty_source.
  - intros Ht Hv. unfold train_model.
    destruct (for_range_nonempty_sources (Z.to_nat epochs) train_loader
                val_loader (st, [], []) Ht Hv) as [[[st' tl] vl] ->].
    by eexists.
  - intros Hep. unfold train_model.
    by replace (Z.to_nat epochs) with 0%nat by lia.
Qed.

End train_loop.

(** C6, on empty loaders. With no round to run [train_model] returns the
    empty histories; with one round the exception is the
    [ZeroDivisionError] of the division itself. *)
Lemma train_model_no_round :
  train_model (H := counting) 0 (fixed_loader []) (fixed_loader []) 0
  = Ok ([], [], 0)
  ∧ train_model (H := counting) 0 (fixed_loader []) (fixed_loader []) 1
    = Raise ZeroDivisionError.
Proof. split; reflexivity. Qed.

Lemma train_model_histories_witness :
  ∃ st',
    train_model (H := counting) 0
      (fixed_loader [([[2; 3]], [1])]) (fixed_loader [([[2; 1]], [0])]) 2
    = Ok ([2%float; 2%float], [1%float; 1%float], st').
Proof.
  apply (train_model_histories (H := counting) 0
           (fixed_loader [([[2; 3]], [1])]) (fixed_loader [([[2; 1]], [0])]) 2);
    (intros ?; reflexivity) || lia || reflexivity.
Defined.

Lemma train_model_empty_source_witness :
  train_model (H := counting) 0
    (fixed_loader []) (fixed_loader [([[2; 1]], [0])]) 1
  = Raise ZeroDivisionError.
Proof.
  apply (train_model_empty_source (H := counting) 0
           (fixed_loader []) (fixed_loader [([[2; 1]], [0])]) 1).
  - lia.
  - left. reflexivity.
Defined.

(** ** The prediction loop *)

Section prediction.
Context `{Framework}.

(** The comparison of logits is a strict order whose ties are transitive. *)
Hypothesis gt_irrefl : ∀ x, gt x x = false.
Hypothesis gt_trans : ∀ x y z, gt x y = true → gt y z = true → gt x z = true.
Hypothesis gt_cotrans :
  ∀ x y z, gt x z = true → gt x y = true ∨ gt y z = true.

(** The model returns a row of two logits for each row of the batch. *)
Hypothesis model_call_shape : ∀ st input_ids,
  length (model_call st input_ids).1 = length input_ids
  ∧ Forall (λ row, length row = 2%nat) (model_call st input_ids).1.

(** The scan from the left keeps the first maximal value met so far. *)
Lemma argmax_from_first_max (pre : list Logit) (best : Logit) (best_i : nat)
    (row : list Logit) :
  pre !! best_i = Some best →
  (∀ j y, pre !! j = Some y → gt y best = false) →
  (∀ j y, (j < best_i)%nat → pre !! j = Some y → gt best y = true) →
  first_max (pre ++ row)
            (Z.of_nat (argmax_from best best_i (length pre) row)).
Proof.
  revert pre best best_i.
  induction row as [|x row IH]; intros pre best best_i Hbest Hmax Hfirst.
  - simpl. rewrite app_nil_r. by exists best_i, best.
  - simpl. replace (pre ++ x :: row) with ((pre ++ [x]) ++ row)
      by (by rewrite <- app_assoc).
    replace (S (length pre)) with (length (pre ++ [x]))
      by (rewrite length_app; simpl; lia).
    destruct (gt x best) eqn:Hx.
    + apply IH.
      * by rewrite lookup_app_r, Nat.sub_diag by lia.
      * intros j y Hj. apply lookup_app_Some in Hj as [Hj|[_ Hj]].
        -- destruct (gt y x) eqn:Hyx; [|done].
           pose proof (gt_trans y x best Hyx Hx) as Hyb.
           specialize (Hmax j y Hj). congruence.
        -- apply list_lookup_singleton_Some in Hj as [_ <-]. apply gt_irrefl.
      * intros j y Hlt Hj. rewrite lookup_app_l in Hj by done.
        destruct (gt_cotrans x y best Hx) as [Hxy|Hyb]; [done|].
        specialize (Hmax j y Hj). congruence.
    + apply IH.
      * rewrite lookup_app_l; [done|]. by eapply lookup_lt_Some.
      * intros j y Hj. apply lookup_app_Some in Hj as [Hj|[_ Hj]].
        -- by eapply Hmax.
        -- by apply list_lookup_singleton_Some in Hj as [_ <-].
      * intros j y Hlt Hj. apply (Hfirst j y Hlt).
        rewrite lookup_app_l in Hj; [done|].
        apply lookup_lt_Some in Hbest. lia.
Qed.

Lemma argmax_first_max (x : Logit) (row : list Logit) :
  ∃ p, argmax (x :: row) = Ok p ∧ first_max (x :: row) p.
Proof.
  eexists. split; [done|].
  apply (argmax_from_first_max [x] x 0 row).
  - done.
  - intros [|j] y Hj; simplify_eq/=. apply gt_irrefl.
  - intros j y Hlt. lia.
Qed.

Lemma first_max_lt (row : list Logit) (p : Z) :
  first_max row p → 0 ≤ p < len row.
Proof.
  intros (i & x & -> & Hi & _). apply lookup_lt_Some in Hi. unfold len. lia.
Qed.

(** On rows of two logits, one label per row, each the index of the first
    maximal value of its row, so 0 or 1. *)
Lemma argmax_dim1_two_classes (outputs : list (list Logit)) :
  Forall (λ row, length row = 2%nat) outputs →
  ∃ preds,
    argmax_dim1 outputs = Ok preds
    ∧ Forall2 first_max outputs preds
    ∧ Forall (λ p, p = 0 ∨ p = 1) preds.
Proof.
  induction 1 as [|row outputs Hrow _ (preds & Hpreds & Hmax & Hlabel)].
  - exists []. by repeat constructor.
  - destruct row as [|x row]; [done|].
    destruct (argmax_first_max x row) as (p & Hp & Hfirst).
    exists (p :: preds). split_and!.
    + cbn [argmax_dim1]. rewrite Hp, Hpreds. done.
    + by constructor.
    + constructor; [|done].
      apply first_max_lt in Hfirst. unfold len in Hfirst.
      rewrite Hrow in Hfirst. lia.
Qed.

Lemma predict_batches_labels (batches : list (list (list Z) * list Z))
    (st : State) (all_preds : list Z) :
  ∃ st' (preds : list (list Z)),
    predict_batches batches (st, all_preds) = Ok (st', all_preds ++ concat preds)
    ∧ Forall2 (λ batch ps, length ps = length batch.1) batches preds
    ∧ Forall2 (Forall2 first_max) (eval_outputs st batches) preds
    ∧ Forall (Forall (λ p, p = 0 ∨ p = 1)) preds.
Proof.
  revert st all_preds.
  induction batches as [|[ids labs] batches IH]; intros st all_preds.
  - exists st, []. simpl. rewrite app_nil_r. by repeat constructor.
  - cbn [predict_batches predict_batch eval_outputs].
    destruct (model_call_shape st ids) as [Hrows Htwo].
    destruct (model_call st ids) as [outputs st1]. simpl in Hrows, Htwo.
    destruct (argmax_dim1_two_classes outputs Htwo)
      as (ps & -> & Hmax & Hlabel).
    csimpl. destruct (IH st1 (all_preds ++ ps))
      as (st' & preds & -> & Hlen & Hmaxs & Hlabels).
    exists st', (ps :: preds). split_and!.
    + simpl. by rewrite <- app_assoc.
    + constructor; [|done]. simpl.
      by rewrite <- (Forall2_length _ _ _ Hmax).
    + by constructor.
    + by constructor.
Qed.

(** C5. In the prediction loop, run after [model.eval()], every batch of
    [B] rows contributes [B] predicted labels, in order; each label is the
    index of the first maximal value among the two logits of its row (a
    later logit wins only if it is strictly greater), hence 0 or 1. *)
Theorem predict_labels (st : State) (test_loader : DataLoader) :
  let st0 := no_grad_enter (model_eval st) in
  let batches := (loader_iter test_loader st0).1 in
  let outputs := eval_outputs (loader_iter test_loader st0).2 batches in
  ∃ st' (preds : list (list Z)),
    predict st test_loader = Ok (concat preds, st')
    ∧ Forall2 (λ batch ps, length ps = length batch.1) batches preds
    ∧ Forall2 (Forall2 first_max) outputs preds
    ∧ Forall (Forall (λ p, p = 0 ∨ p = 1)) preds.
Proof.
  intros st0 batches outputs. subst st0 batches outputs. unfold predict.
  destruct (loader_iter test_loader (no_grad_enter (model_eval st)))
    as [batches st1]. simpl.
  destruct (predict_batches_labels batches st1 [])
    as (st' & preds & -> & Hlen & Hmax & Hlabel).
  by exists (no_grad_exit st'), preds.
Qed.

End prediction.

Lemma predict_labels_witness :
  ∃ st' (preds : list (list Z)),
    predict (H := counting) 4
      (fixed_loader [([[2; 3]; [4; 5]; [1; 3]], [1; 0; 0]); ([[1; 1]], [0])])
    = Ok (concat preds, st')
    ∧ Forall (Forall (λ p, p = 0 ∨ p = 1)) preds.
Proof.
  destruct (predict_labels (H := counting)) with
    (st := 4)
    (test_loader := fixed_loader (H := counting)
       [([[2; 3]; [4; 5]; [1; 3]], [1; 0; 0]); ([[1; 1]], [0])])
    as (st' & preds & Hpredict & _ & _ & Hlabel).
  - intros x. apply Z.ltb_irrefl.
  - intros x y z Hxy Hyz. simpl in *. lia.
  - intros x y z Hxz. simpl in *.
    destruct (Z.ltb_spec y x); [by left|right]. lia.
  - intros st ids. simpl. rewrite length_fmap. split; [done|].
    apply Forall_fmap, Forall_forall. by intros row _.
  - by exists st', preds.
Defined.

Example predict_counting :
  predict (H := counting) 4
    (fixed_loader [([[2; 3]; [4; 5]; [1; 3]], [1; 0; 0]); ([[1; 1]], [0])])
  = Ok ([0; 0; 0; 1], 4).
Proof. reflexivity. Qed.

(** ** The classifier in evaluation mode *)

Section evaluation.
Context `{Layers}.

Lemma forward_eval (self : Binary_Classifier) (g : Gen) (x : list (list Z)) :
  forward (eval self) g x
  = (fc (parameters self)
        (last_step (lstm (parameters self) (embedding (parameters self) x)).1),
     g).
Proof.
  unfold forward, dropout. simpl.
  by destruct (lstm (parameters self) (embedding (parameters self) x)).
Qed.

(** After [model.eval()], dropout is the identity and draws nothing: with
    the layers taken as functions of the parameters and of their input, a
    forward pass returns the same logits from any state of the random
    generator and leaves the generator as it found it. *)
Theorem forward_eval_deterministic (self : Binary_Classifier)
    (x : list (list Z)) (g1 g2 : Gen) :
  (forward (eval self) g1 x).1 = (forward (eval self) g2 x).1
  ∧ (forward (eval self) g1 x).2 = g1
  ∧ (forward (eval self) (forward (eval self) g1 x).2 x).1
    = (forward (eval self) g1 x).1
  ∧ parameters (eval self) = parameters self.
Proof. rewrite !forward_eval. by split_and!. Qed.

(** In training mode the logits are those of the dropped tensor, and the
    generator advances. *)
Lemma forward_train (self : Binary_Classifier) (g : Gen) (x : list (list Z)) :
  forward (train self) g x
  = let d := drop p_drop g
               (last_step
                  (lstm (parameters self) (embedding (parameters self) x)).1) in
    (fc (parameters self) d.1, d.2).
Proof.
  unfold forward, dropout. simpl.
  destruct (lstm (parameters self) (embedding (parameters self) x)).
  simpl. by destruct (drop p_drop g _).
Qed.

End evaluation.

(** In training mode the logits depend on the state of the generator. *)
Example forward_train_depends_on_generator :
  let self := @Build_Binary_Classifier counting_layers true 1 in
  (forward (H := counting_layers) self 0 [[2; 3]]).1 = [6]
  ∧ (forward (H := counting_layers) self 1 [[2; 3]]).1 = [0].
Proof. split; reflexivity. Qed.

(** ** Examples of the docstrings *)

Example simple_tokenizer_hello :
  simple_tokenizer "Hello World!" = ["hello"; "world"].
Proof. vm_compute. reflexivity. Qed.

Example simple_tokenizer_empty :
  simple_tokenizer "" = [] ∧ simple_tokenizer "?! ..." = [].
Proof. split; reflexivity. Qed.

Example text_to_sequence_bob :
  text_to_sequence "Hello Bob World" example_vocab = Ok [2; 1; 3].
Proof. vm_compute. reflexivity. Qed.

Example build_vocab_docstring :
  build_vocab ["Hello world"; "AI is amazing"; "AI for the future"] 1
  = indexed ["<pad>"; "<unk>"; "hello"; "world"; "ai"; "is"; "amazing";
             "for"; "the"; "future"].
Proof. rewrite build_vocab_indexed. reflexivity. Qed.

(** * Further properties *)

(** ** The tokenizer *)

Lemma is_word_lower_char (c : ascii) : is_word (lower_char c) = is_word c.
Proof. destruct c as [[] [] [] [] [] [] [] []]; reflexivity. Qed.

Lemma lower_char_idemp (c : ascii) : lower_char (lower_char c) = lower_char c.
Proof. destruct c as [[] [] [] [] [] [] [] []]; reflexivity. Qed.

Lemma lower_idemp (s : string) : lower (lower s) = lower s.
Proof.
  induction s as [|c s IH]; simpl; [done|]. by rewrite lower_char_idemp, IH.
Qed.

Lemma lower_app (s1 s2 : string) : lower (s1 +:+ s2) = lower s1 +:+ lower s2.
Proof. induction s1 as [|c s1 IH]; simpl; [done|]. by rewrite IH. Qed.

Lemma string_app_assoc (s1 s2 s3 : string) :
  (s1 +:+ s2) +:+ s3 = s1 +:+ (s2 +:+ s3).
Proof.
  induction s1 as [|c s1 IH]; [done|].
  change (String c ((s1 +:+ s2) +:+ s3) = String c (s1 +:+ s2 +:+ s3)).
  by rewrite IH.
Qed.

Lemma string_app_empty_r (s : string) : s +:+ "" = s.
Proof.
  induction s as [|c s IH]; [done|].
  change (String c (s +:+ "") = String c s). by rewrite IH.
Qed.

Lemma string_snoc_nonempty (s : string) (c : ascii) : s +:+ String c "" ≠ "".
Proof. by destruct s. Qed.

(** A token in progress stays a lowered word while lowered characters are
    read, and only nonempty runs are emitted. *)
Lemma findall_word_tokens (s cur : string) :
  lower s = s → all_word cur = true → lower cur = cur →
  Forall (λ t, t ≠ "" ∧ all_word t = true ∧ lower t = t) (findall_word cur s).
Proof.
  revert cur. induction s as [|c s IH]; intros cur Hs Hw Hl; simpl.
  - case_decide; by repeat constructor.
  - simpl in Hs. injection Hs as Hc Hs.
    destruct (is_word c) eqn:Hcw.
    + apply IH; [done|by apply all_word_snoc|].
      rewrite lower_app. simpl. by rewrite Hl, Hc.
    + case_decide; [by apply IH|].
      constructor; [done|by apply IH].
Qed.

(** X1. Every token of a text is a nonempty string of word characters in
    which no character changes under lowercasing. *)
Theorem simple_tokenizer_tokens (text : string) :
  Forall (λ t, t ≠ "" ∧ all_word t = true ∧ lower t = t)
         (simple_tokenizer text).
Proof. apply findall_word_tokens; [apply lower_idemp|done..]. Qed.

(** Reading a word appends it to the token in progress. *)
Lemma findall_word_word (t cur rest : string) :
  all_word t = true →
  findall_word cur (t +:+ rest) = findall_word (cur +:+ t) rest.
Proof.
  revert cur. induction t as [|c t IH]; intros cur Hw; simpl.
  - by rewrite string_app_empty_r.
  - apply andb_true_iff in Hw as [Hc Hw]. rewrite Hc, IH by done.
    by rewrite string_app_assoc.
Qed.

Lemma findall_word_joined (tokens : list string) :
  Forall (λ t, t ≠ "" ∧ all_word t = true ∧ lower t = t) tokens →
  findall_word "" (join_spaces tokens) = tokens
  ∧ lower (join_spaces tokens) = join_spaces tokens.
Proof.
  induction 1 as [|t tokens (Hne & Hw & Hl) Hall [IH1 IH2]]; [done|].
  destruct tokens as [|t' tokens].
  - simpl. split; [|done].
    rewrite <- (string_app_empty_r t) at 1.
    rewrite findall_word_word by done.
    change (findall_word t "" = [t]). simpl. by rewrite decide_False.
  - change (join_spaces (t :: t' :: tokens))
      with (t +:+ " " +:+ join_spaces (t' :: tokens)).
    split.
    + rewrite findall_word_word by done.
      change (findall_word t (String " " (join_spaces (t' :: tokens)))
              = t :: t' :: tokens).
      cbn [findall_word]. change (is_word " ") with false. cbv iota.
      rewrite decide_False by done. by rewrite IH1.
    + rewrite lower_app, Hl.
      change (t +:+ String " " (lower (join_spaces (t' :: tokens)))
              = t +:+ String " " (join_spaces (t' :: tokens))).
      by rewrite IH2.
Qed.

(** X2. Joining the tokens of a text with single spaces and tokenizing again
    gives the same tokens; in particular a token is its own tokenization. *)
Theorem simple_tokenizer_rejoin (text : string) :
  simple_tokenizer (join_spaces (simple_tokenizer text)) = simple_tokenizer text
  ∧ Forall (λ t, simple_tokenizer t = [t]) (simple_tokenizer text).
Proof.
  assert (Hall : Forall (λ t, t ≠ "" ∧ all_word t = true ∧ lower t = t)
                        (simple_tokenizer text))
    by (apply findall_word_tokens; [apply lower_idemp|done..]).
  split.
  - destruct (findall_word_joined _ Hall) as [H1 H2].
    unfold simple_tokenizer at 1. by rewrite H2.
  - apply Forall_forall. intros t Ht.
    pose proof (proj1 (Forall_forall _ _) Hall t Ht) as Htok.
    destruct (findall_word_joined [t]) as [H1 H2]; [by constructor|].
    unfold simple_tokenizer. simpl in H1, H2. by rewrite H2.
Qed.

Lemma findall_word_separator (s s' cur : string) (c : ascii) :
  is_word c = false →
  findall_word cur (s +:+ String c s')
  = findall_word cur s ++ findall_word "" s'.
Proof.
  intros Hc. revert cur. induction s as [|d s IH]; intros cur; simpl.
  - rewrite Hc. by case_decide.
  - destruct (is_word d); [apply IH|].
    case_decide; [apply IH|]. by rewrite IH.
Qed.

(** X3. On texts of Latin-1 code points (0..255), where [str.lower] works
    character by character, a character that is not a word character
    separates: the tokens of [a + c + b] are the tokens of [a] followed by
    the tokens of [b]. *)
Theorem simple_tokenizer_separator (a b : string) (c : ascii) :
  is_word c = false →
  simple_tokenizer (a +:+ String c b)
  = simple_tokenizer a ++ simple_tokenizer b.
Proof.
  intros Hc. unfold simple_tokenizer. rewrite lower_app. simpl.
  apply findall_word_separator. by rewrite is_word_lower_char.
Qed.

Lemma simple_tokenizer_separator_witness :
  simple_tokenizer ("Hello" +:+ String "," "world")
  = simple_tokenizer "Hello" ++ simple_tokenizer "world".
Proof. apply simple_tokenizer_separator. reflexivity. Defined.

(** ** The dictionary of counts *)

Lemma first_seen_length (tokens : list string) :
  (length (first_seen tokens) ≤ length tokens)%nat.
Proof.
  induction tokens as [|x tokens IH]; simpl; [done|].
  pose proof (length_filter (λ t', t' ≠ x) (first_seen tokens)). lia.
Qed.

Lemma occurrences_not_elem (t : string) (tokens : list string) :
  t ∉ tokens → occurrences t tokens = 0.
Proof.
  intros Ht. pose proof (occurrences_nonneg t tokens).
  destruct (Z_le_gt_dec 1 (occurrences t tokens)) as [H1|H1]; [|lia].
  by apply occurrences_elem in H1.
Qed.

(** Summing a function over a duplicate-free list: the term of [x] apart. *)
Lemma sum_filter_ne (f : string → Z) (x : string) (l : list string) :
  NoDup l →
  foldr (λ t acc, f t + acc) 0 l
  = (if decide (x ∈ l) then f x else 0)
    + foldr (λ t acc, f t + acc) 0 (filter (λ t', t' ≠ x) l).
Proof.
  induction 1 as [|y l Hy Hnd IH].
  - rewrite filter_nil. cbn [foldr].
    destruct (decide (x ∈ [])) as [Hin|_]; [by apply elem_of_nil in Hin|done].
  - cbn [foldr]. rewrite IH. destruct (decide (y = x)) as [->|Hne].
    + rewrite filter_cons_False by (intros Hc; by apply Hc).
      destruct (decide (x ∈ x :: l)) as [_|Hn];
        [|exfalso; apply Hn, elem_of_cons; by left].
      destruct (decide (x ∈ l)); [done|lia].
    + rewrite filter_cons_True by done. cbn [foldr].
      destruct (decide (x ∈ l)) as [Hin|Hin],
               (decide (x ∈ y :: l)) as [Hin'|Hin']; try lia.
      * exfalso. apply Hin', elem_of_cons. by right.
      * exfalso. apply elem_of_cons in Hin' as [->|?]; [done|tauto].
Qed.

Lemma foldr_sum_ext (f g : string → Z) (l : list string) :
  (∀ t, t ∈ l → f t = g t) →
  foldr (λ t acc, f t + acc) 0 l = foldr (λ t acc, g t + acc) 0 l.
Proof.
  induction l as [|y l IH]; intros Hfg; simpl; [done|].
  rewrite IH, Hfg; [done|apply elem_of_cons; by left|].
  intros t Ht. apply Hfg, elem_of_cons. by right.
Qed.

(** The counts of the distinct tokens add up to the number of tokens. *)
Lemma occurrences_total (tokens : list string) :
  foldr (λ t acc, occurrences t tokens + acc) 0 (first_seen tokens)
  = len tokens.
Proof.
  induction tokens as [|x tokens IH]; [done|].
  cbn [first_seen foldr].
  rewrite (foldr_sum_ext (λ t, occurrences t (x :: tokens))
                         (λ t, occurrences t tokens)).
  - rewrite (sum_filter_ne _ x) in IH by apply first_seen_NoDup.
    cbn [occurrences]. rewrite decide_True by done.
    unfold len in *. cbn [length].
    destruct (decide (x ∈ first_seen tokens)) as [Hin|Hin]; [lia|].
    rewrite occurrences_not_elem; [lia|]. by rewrite <- first_seen_elem.
  - intros t [Hne _]%list_elem_of_filter. cbn [occurrences].
    by rewrite decide_False by done.
Qed.

(** X4. After the first loop of [build_vocab] the dictionary of counts has
    one key per distinct token, every count is at least 1, a key has the
    number of occurrences of its token as count, and the counts add up to
    the number of tokens of the collection. *)
Theorem count_words_invariant (texts : list string) :
  NoDup (count_words texts).*1
  ∧ (∀ t, t ∈ (count_words texts).*1 ↔ t ∈ all_tokens texts)
  ∧ (∀ t c, (t, c) ∈ count_words texts →
       c = occurrences t (all_tokens texts) ∧ 1 ≤ c)
  ∧ total_count (count_words texts) = len (all_tokens texts).
Proof.
  rewrite count_words_spec.
  assert (Hkeys : ((λ t, (t, occurrences t (all_tokens texts)))
                     <$> first_seen (all_tokens texts)).*1
                  = first_seen (all_tokens texts)).
  { rewrite <- list_fmap_compose. apply list_fmap_id. }
  split_and!.
  - rewrite Hkeys. apply first_seen_NoDup.
  - intros t. by rewrite Hkeys, first_seen_elem.
  - intros t c (t' & [= -> ->] & Ht)%list_elem_of_fmap. split; [done|].
    by apply occurrences_elem, first_seen_elem.
  - rewrite <- occurrences_total. unfold total_count.
    generalize (first_seen (all_tokens texts)) as l.
    induction l as [|y l IH]; csimpl; [done|]. by rewrite IH.
Qed.

Lemma count_words_invariant_witness :
  ("hello", 2) ∈ count_words ["Hello world"; "hello"]
  ∧ 2 = occurrences "hello" (all_tokens ["Hello world"; "hello"]).
Proof.
  assert (Hin : ("hello", 2) ∈ count_words ["Hello world"; "hello"]).
  { vm_compute. constructor. }
  split; [exact Hin|].
  apply (count_words_invariant ["Hello world"; "hello"]). exact Hin.
Defined.

(** ** Size and growth of the vocabulary *)

Lemma all_tokens_app (a b : list string) :
  all_tokens (a ++ b) = all_tokens a ++ all_tokens b.
Proof. unfold all_tokens. by rewrite fmap_app, concat_app. Qed.

Lemma occurrences_app (t : string) (l1 l2 : list string) :
  occurrences t (l1 ++ l2) = occurrences t l1 + occurrences t l2.
Proof. induction l1 as [|x l1 IH]; simpl; [done|]. rewrite IH. lia. Qed.

Lemma occurrences_Permutation (t : string) (l1 l2 : list string) :
  l1 ≡ₚ l2 → occurrences t l1 = occurrences t l2.
Proof. induction 1; simpl; lia. Qed.

Lemma all_tokens_Permutation (a b : list string) :
  a ≡ₚ b → all_tokens a ≡ₚ all_tokens b.
Proof.
  unfold all_tokens. induction 1 as [|x a b _ IH|x y a|a b c _ IH1 _ IH2]; simpl.
  - done.
  - by rewrite IH.
  - rewrite !app_assoc. f_equiv. apply Permutation_app_comm.
  - by rewrite IH1.
Qed.

Lemma frequent_NoDup (texts : list string) (min_freq : Z) :
  NoDup (frequent texts min_freq).
Proof. apply NoDup_filter, first_seen_NoDup. Qed.

Lemma build_vocab_len_frequent (texts : list string) (min_freq : Z) :
  dict_len (build_vocab texts min_freq) = 2 + len (frequent texts min_freq).
Proof. rewrite build_vocab_len. unfold entries, len. cbn [length]. lia. Qed.

Lemma frequent_more_texts (texts more : list string) (min_freq : Z) (t : string) :
  t ∈ frequent texts min_freq →
  t ∈ frequent (texts ++ more) min_freq ∧ t ∈ frequent (more ++ texts) min_freq.
Proof.
  rewrite !frequent_elem, !all_tokens_app, !occurrences_app, !elem_of_app.
  pose proof (occurrences_nonneg t (all_tokens more)).
  intros [Hin Hocc]. split; (split; [tauto|lia]).
Qed.

(** X5. The vocabulary has the two reserved entries and one entry per
    distinct token that is frequent enough: its size is at least 2 and at
    most 2 plus the number of tokens of the collection. *)
Theorem build_vocab_size (texts : list string) (min_freq : Z) :
  dict_len (build_vocab texts min_freq) = 2 + len (frequent texts min_freq)
  ∧ NoDup (frequent texts min_freq)
  ∧ 2 ≤ dict_len (build_vocab texts min_freq) ≤ 2 + len (all_tokens texts).
Proof.
  rewrite build_vocab_len_frequent. unfold len.
  pose proof (length_filter
    (λ t, min_freq ≤ occurrences t (all_tokens texts))
    (first_seen (all_tokens texts))) as Hf.
  pose proof (first_seen_length (all_tokens texts)) as Hs.
  fold (frequent texts min_freq) in Hf.
  split_and!; try lia.
  apply frequent_NoDup.
Qed.

(** X6. The tokens of the vocabulary do not depend on the order of the
    texts: two collections that are permutations of each other give
    vocabularies with the same tokens and the same size. *)
Theorem build_vocab_permutation (texts texts' : list string) (min_freq : Z) :
  texts ≡ₚ texts' →
  dom (build_vocab texts min_freq) = dom (build_vocab texts' min_freq)
  ∧ dict_len (build_vocab texts min_freq)
    = dict_len (build_vocab texts' min_freq).
Proof.
  intros Hperm. pose proof (all_tokens_Permutation _ _ Hperm) as Htok.
  assert (Hfreq : ∀ t, t ∈ frequent texts min_freq
                       ↔ t ∈ frequent texts' min_freq).
  { intros t. rewrite !frequent_elem.
    by rewrite (occurrences_Permutation t _ _ Htok), Htok. }
  split.
  - apply set_eq. intros t.
    rewrite !elem_of_dom, !build_vocab_is_Some. unfold entries.
    rewrite !elem_of_cons, Hfreq. done.
  - rewrite !build_vocab_len_frequent. f_equal. unfold len. f_equal.
    apply Permutation_length, NoDup_Permutation.
    + apply frequent_NoDup.
    + apply frequent_NoDup.
    + exact Hfreq.
Qed.

Lemma build_vocab_permutation_witness :
  dom (build_vocab ["Hello world"; "hello"] 2)
  = dom (build_vocab ["hello"; "Hello world"] 2).
Proof.
  apply (build_vocab_permutation ["Hello world"; "hello"]
           ["hello"; "Hello world"] 2).
  apply Permutation_swap.
Defined.

(** X7. Adding texts to the collection, before or after, never removes a
    token from the vocabulary. *)
Theorem build_vocab_more_texts (texts more : list string) (min_freq : Z) :
  dom (build_vocab texts min_freq) ⊆ dom (build_vocab (texts ++ more) min_freq)
  ∧ dom (build_vocab texts min_freq)
    ⊆ dom (build_vocab (more ++ texts) min_freq).
Proof.
  split; intros t; rewrite !elem_of_dom, !build_vocab_is_Some; unfold entries;
    rewrite !elem_of_cons;
    (intros [?|[?|Hin]]; [tauto..|]);
    right; right; by apply (frequent_more_texts texts more).
Qed.

Lemma filter_not_elem_cons (x : string) (K l : list string) :
  filter (λ t, t ∉ x :: K) l = filter (λ t', t' ≠ x) (filter (λ t, t ∉ K) l).
Proof.
  rewrite list_filter_filter. apply list_filter_iff. intros y.
  rewrite elem_of_cons. tauto.
Qed.

Lemma first_seen_app (l1 l2 : list string) :
  first_seen (l1 ++ l2)
  = first_seen l1 ++ filter (λ t, t ∉ l1) (first_seen l2).
Proof.
  induction l1 as [|x l1 IH].
  - simpl. by rewrite filter_no_keys.
  - cbn [app first_seen]. rewrite IH, filter_app.
    by rewrite <- filter_not_elem_cons.
Qed.

Lemma filter_all_elem (P : string → Prop) `{∀ x, Decision (P x)}
    (l : list string) :
  (∀ x, x ∈ l → P x) → filter P l = l.
Proof.
  induction l as [|x l IH]; intros HP; [done|].
  rewrite filter_cons_True by (apply HP, elem_of_cons; by left).
  rewrite IH; [done|]. intros y Hy. apply HP, elem_of_cons. by right.
Qed.

(** With a threshold of at most 1 every distinct token is frequent. *)
Lemma frequent_low_threshold (texts : list string) (min_freq : Z) :
  min_freq ≤ 1 → frequent texts min_freq = first_seen (all_tokens texts).
Proof.
  intros Hmf. unfold frequent. apply filter_all_elem.
  intros t Ht. apply (proj1 (first_seen_elem _ _)) in Ht.
  apply (proj1 (occurrences_elem _ _)) in Ht. simpl. lia.
Qed.

Lemma frequent_index (texts : list string) (min_freq : Z) (t : string) :
  t ∈ frequent texts min_freq →
  ∃ k : nat, frequent texts min_freq !! k = Some t
             ∧ build_vocab texts min_freq !! t = Some (2 + Z.of_nat k).
Proof.
  intros (k & Hk)%list_elem_of_lookup. exists k. split; [done|].
  apply build_vocab_lookup. exists (S (S k)). split; [done|lia].
Qed.

Lemma not_frequent_None (texts : list string) (min_freq : Z) (t : string) :
  all_word t = true → t ∉ frequent texts min_freq →
  build_vocab texts min_freq !! t = None.
Proof.
  intros Hw Hnf. apply eq_None_not_Some. rewrite build_vocab_is_Some.
  unfold entries. rewrite !elem_of_cons.
  intros [->|[->|?]]; [discriminate Hw..|done].
Qed.

(** X8. With [min_freq <= 1] the vocabulary of a collection is kept by the
    vocabulary of the collection followed by more texts: every token keeps
    its index, and the new tokens get the next indices. *)
Theorem build_vocab_extension (texts more : list string) (min_freq : Z) :
  min_freq ≤ 1 →
  build_vocab texts min_freq ⊆ build_vocab (texts ++ more) min_freq
  ∧ entries (texts ++ more) min_freq
    = entries texts min_freq
      ++ filter (λ t, t ∉ all_tokens texts) (first_seen (all_tokens more)).
Proof.
  intros Hmf.
  assert (Hent : entries (texts ++ more) min_freq
    = entries texts min_freq
      ++ filter (λ t, t ∉ all_tokens texts) (first_seen (all_tokens more))).
  { unfold entries. rewrite !frequent_low_threshold by done.
    by rewrite all_tokens_app, first_seen_app. }
  split; [|done].
  apply map_subseteq_spec. intros t i (k & Hk & ->)%build_vocab_lookup.
  apply build_vocab_lookup. exists k. split; [|done].
  rewrite Hent. by apply lookup_app_l_Some.
Qed.

Lemma build_vocab_extension_witness :
  build_vocab ["Hello world"] 1 ⊆ build_vocab (["Hello world"] ++ ["bye"]) 1.
Proof. apply (build_vocab_extension ["Hello world"] ["bye"] 1). lia. Defined.

(** Above 1 the indices can move: a token seen first becomes frequent. *)
Example build_vocab_extension_threshold_2 :
  build_vocab ["x y y"] 2 !! "y" = Some 2
  ∧ build_vocab (["x y y"] ++ ["x"]) 2 !! "y" = Some 3.
Proof. split; vm_compute; reflexivity. Qed.

(** ** Encoding with a built vocabulary *)

Lemma simple_tokenizer_all_tokens (texts : list string) (text t : string) :
  text ∈ texts → t ∈ simple_tokenizer text → t ∈ all_tokens texts.
Proof.
  intros Htext Ht. unfold all_tokens.
  induction texts as [|text' texts IH]; [by apply elem_of_nil in Htext|].
  csimpl. apply elem_of_app.
  apply elem_of_cons in Htext as [->|Htext]; [by left|right; by apply IH].
Qed.

(** X9. With [min_freq <= 1], encoding a text of the collection never
    yields the unknown index: [text_to_sequence] returns one index per
    token, each at least 2 and below the size of the vocabulary. *)
Theorem text_to_sequence_known (texts : list string) (min_freq : Z)
    (text : string) :
  min_freq ≤ 1 → text ∈ texts →
  ∃ sequence,
    text_to_sequence text (build_vocab texts min_freq) = Ok sequence
    ∧ length sequence = length (simple_tokenizer text)
    ∧ Forall (λ i, 2 ≤ i < dict_len (build_vocab texts min_freq)) sequence.
Proof.
  intros Hmf Htext. eexists. split_and!.
  - apply (comprehension_unk _ _ 1), build_vocab_unk.
  - by rewrite length_fmap.
  - apply Forall_fmap, Forall_forall. intros t Ht. simpl.
    assert (Hfreq : t ∈ frequent texts min_freq).
    { rewrite frequent_low_threshold, first_seen_elem by done.
      by eapply simple_tokenizer_all_tokens. }
    destruct (frequent_index _ _ _ Hfreq) as (k & _ & Hk).
    rewrite Hk. simpl. pose proof (build_vocab_values _ _ _ _ Hk). lia.
Qed.

Lemma text_to_sequence_known_witness :
  ∃ sequence,
    text_to_sequence "Hello world" (build_vocab ["Hello world"; "hello"] 1)
    = Ok sequence
    ∧ length sequence = length (simple_tokenizer "Hello world").
Proof.
  destruct (text_to_sequence_known ["Hello world"; "hello"] 1 "Hello world")
    as (sequence & Hs & Hlen & _).
  - lia.
  - constructor.
  - by exists sequence.
Defined.

(** X10. Indices decode back to tokens. The entries of a vocabulary of
    [build_vocab], read as a list, invert it: a token has index [i] exactly
    when entry [i] is that token. In the sequence of a text, the index of a
    token of the vocabulary is at least 2 and decodes to the token, and the
    index of any other token is 1. *)
Theorem text_to_sequence_decode (corpus : list string) (min_freq : Z)
    (text : string) :
  (∀ t i, build_vocab corpus min_freq !! t = Some i
          ↔ decode (entries corpus min_freq) i = Some t)
  ∧ ∃ sequence,
      text_to_sequence text (build_vocab corpus min_freq) = Ok sequence
      ∧ Forall2 (λ t i,
           if decide (t ∈ frequent corpus min_freq)
           then 2 ≤ i ∧ decode (entries corpus min_freq) i = Some t
           else i = 1)
         (simple_tokenizer text) sequence.
Proof.
  assert (Hdec : ∀ t i, build_vocab corpus min_freq !! t = Some i
                        ↔ decode (entries corpus min_freq) i = Some t).
  { intros t i. rewrite build_vocab_lookup. unfold decode. split.
    - intros (k & Hk & ->).
      rewrite (proj2 (Z.ltb_ge _ _)) by lia. by rewrite Nat2Z.id.
    - destruct (Z.ltb_spec i 0); [done|]. intros Hi.
      exists (Z.to_nat i). split; [done|lia]. }
  split; [exact Hdec|]. eexists. split.
  - apply (comprehension_unk _ _ 1), build_vocab_unk.
  - apply Forall2_fmap_r, Forall_Forall2_diag, Forall_forall.
    intros t Ht. simpl.
    pose proof (proj1 (Forall_forall _ _) (simple_tokenizer_all_word text) t Ht)
      as Hw. simpl in Hw.
    destruct (decide (t ∈ frequent corpus min_freq)) as [Hfreq|Hfreq].
    + destruct (frequent_index _ _ _ Hfreq) as (k & _ & Hk).
      rewrite Hk. simpl. split; [lia|]. by apply Hdec.
    + by rewrite not_frequent_None.
Qed.

(** ** Padding and the errors of the encoder *)

(** X11. The length of a padded sequence, for every [max_length]: it is
    [max_length] when that is not negative; a negative [max_length] makes
    the slice drop entries from the end, so that [len + max_length] entries
    remain, or none. *)
Theorem pad_sequence_any_length (sequence : list Z) (max_length : Z) :
  len (pad_sequence sequence max_length)
  = (if max_length <? 0 then Z.max 0 (len sequence + max_length)
     else max_length)
  ∧ (max_length < 0 →
     pad_sequence sequence max_length
     = take (Z.to_nat (len sequence + max_length)) sequence).
Proof.
  assert (Hneg : max_length < 0 →
     pad_sequence sequence max_length
     = take (Z.to_nat (len sequence + max_length)) sequence).
  { intros Hn. unfold pad_sequence, slice_to.
    rewrite (proj2 (Z.ltb_ge (len sequence) max_length))
      by (unfold len; lia).
    by rewrite (proj2 (Z.ltb_lt _ _) Hn). }
  split; [|done].
  destruct (Z.ltb_spec max_length 0) as [Hn|Hn].
  - rewrite Hneg by done. unfold len. rewrite length_take. lia.
  - by apply pad_sequence_length.
Qed.

Lemma pad_sequence_any_length_witness :
  pad_sequence [2; 1; 3] (-2) = take (Z.to_nat (len [2; 1; 3] + -2)) [2; 1; 3].
Proof. apply (pad_sequence_any_length [2; 1; 3] (-2)). lia. Defined.

(** X12. For [max_length >= 0] padding is idempotent, leaves a sequence of
    that length as it is, and keeps the entries it does not cut: the result
    starts with the first [min(len, max_length)] entries of the sequence. *)
Theorem pad_sequence_idempotent (sequence : list Z) (max_length : Z) :
  0 ≤ max_length →
  pad_sequence (pad_sequence sequence max_length) max_length
  = pad_sequence sequence max_length
  ∧ (len sequence = max_length → pad_sequence sequence max_length = sequence)
  ∧ take (Z.to_nat (Z.min (len sequence) max_length))
         (pad_sequence sequence max_length)
    = take (Z.to_nat (Z.min (len sequence) max_length)) sequence.
Proof.
  intros H0.
  assert (Hsame : ∀ l, len l = max_length → pad_sequence l max_length = l).
  { intros l Hl. rewrite pad_sequence_long by lia.
    apply take_ge. unfold len in Hl. lia. }
  split_and!.
  - apply Hsame. by apply pad_sequence_length.
  - apply Hsame.
  - destruct (Z_lt_le_dec (len sequence) max_length) as [Hlt|Hle].
    + rewrite pad_sequence_short by done.
      rewrite Z.min_l by lia. unfold len. rewrite Nat2Z.id.
      by rewrite take_app_length, firstn_all.
    + rewrite pad_sequence_long by done. rewrite Z.min_r by lia.
      by rewrite take_take, Nat.min_id.
Qed.

Lemma pad_sequence_idempotent_witness :
  pad_sequence (pad_sequence [2; 1; 3] 5) 5 = pad_sequence [2; 1; 3] 5.
Proof. apply (pad_sequence_idempotent [2; 1; 3] 5). lia. Defined.

(** X13. The errors of [text_to_sequence]. With ["<unk>"] in the vocabulary
    it returns one index per token. Without it, it raises
    [KeyError("<unk>")] as soon as the text has a token, whether or not the
    tokens are in the vocabulary, and returns the empty sequence for a text
    without tokens. *)
Theorem text_to_sequence_errors (text : string) (vocab : gmap string Z) :
  (is_Some (vocab !! "<unk>") →
   ∃ sequence, text_to_sequence text vocab = Ok sequence
               ∧ length sequence = length (simple_tokenizer text))
  ∧ (vocab !! "<unk>" = None → simple_tokenizer text ≠ [] →
     text_to_sequence text vocab = Raise (KeyError "<unk>"))
  ∧ (simple_tokenizer text = [] → text_to_sequence text vocab = Ok []).
Proof.
  unfold text_to_sequence. split_and!.
  - intros [u Hu]. rewrite (comprehension_unk _ _ u Hu).
    eexists. split; [done|]. by rewrite length_fmap.
  - intros Hu Htok. destruct (simple_tokenizer text) as [|t tokens]; [done|].
    by apply comprehension_KeyError.
  - by intros ->.
Qed.

Lemma text_to_sequence_errors_witness :
  text_to_sequence "Hello" (<["hello" := 2]> ∅) = Raise (KeyError "<unk>").
Proof.
  apply (text_to_sequence_errors "Hello" (<["hello" := 2]> ∅)).
  - reflexivity.
  - vm_compute. discriminate.
Defined.

(** ** Errors of the dataset *)

Lemma positional_error {A : Type} (l : list A) (idx : Z) (e : exn) :
  positional l idx = Raise e → e = IndexError.
Proof.
  unfold positional.
  destruct ((0 <=? _) && _); [|congruence].
  destruct (l !! _); congruence.
Qed.

(** X14. The exceptions of [__getitem__]. A position outside
    [[-n, n)] for the length [n] of the texts or of the labels raises
    [IndexError], also when it is below the size of the dataset and only
    the labels are too short. At a position valid for both, an exception
    is either the [KeyError("<unk>")] of a vocabulary without ["<unk>"],
    raised when the text has a token, or the exception of [torch.tensor]
    on an index or a label that is not an [int64]; the latter is raised
    for a missing label whenever the text could be encoded. *)
Theorem dataset_getitem_errors (self : TweetDataset) (idx : Z) :
  let n_texts := len (contents (texts self)) in
  let n_labels := len (contents (labels self)) in
  ((idx < - n_texts ∨ n_texts ≤ idx) ∨ (idx < - n_labels ∨ n_labels ≤ idx) →
   dataset_getitem self idx = Raise IndexError)
  ∧ (- n_texts ≤ idx < n_texts → - n_labels ≤ idx < n_labels →
     ∃ text label_item,
       subscript (texts self) idx = Ok text
       ∧ subscript (labels self) idx = Ok label_item
       ∧ (vocab self !! "<unk>" = None → simple_tokenizer text ≠ [] →
          dataset_getitem self idx = Raise (KeyError "<unk>"))
       ∧ (¬ long_label label_item →
          is_Some (vocab self !! "<unk>") ∨ simple_tokenizer text = [] →
          dataset_getitem self idx = Raise ConversionError)
       ∧ (∀ e, dataset_getitem self idx = Raise e →
          (e = KeyError "<unk>" ∧ vocab self !! "<unk>" = None
           ∧ simple_tokenizer text ≠ [])
          ∨ e = ConversionError)).
Proof.
  intros n_texts n_labels. subst n_texts n_labels.
  assert (Hpos : ∀ (A : Type) (l : list A),
            - len l ≤ idx < len l → ∃ x, positional l idx = Ok x).
  { intros A l Hidx. destruct (Z.ltb_spec idx 0).
    - rewrite positional_negative by lia.
      destruct (positional_in_range l (idx + len l)) as (x & _ & ->); [lia|].
      by exists x.
    - destruct (positional_in_range l idx) as (x & _ & ->); [lia|].
      by exists x. }
  split.
  - intros [Ht|Hl]; unfold dataset_getitem; rewrite !subscript_positional.
    + by rewrite (positional_out_of_range _ _ Ht).
    + rewrite (positional_out_of_range (contents (labels self)) _ Hl).
      destruct (positional (contents (texts self)) idx) as [text|e] eqn:He;
        [done|]. by rewrite (positional_error _ _ _ He).
  - intros Ht Hl.
    destruct (Hpos _ (contents (texts self)) Ht) as [text Htext].
    destruct (Hpos _ (contents (labels self)) Hl) as [label_item Hlabel].
    exists text, label_item. unfold dataset_getitem.
    rewrite !subscript_positional, Htext, Hlabel. csimpl.
    unfold text_to_sequence. split_and!; [done..| | |].
    + intros Hu Htok.
      destruct (simple_tokenizer text) as [|t tokens]; [done|].
      by rewrite comprehension_KeyError.
    + intros Hlab Hseq.
      assert (∃ raw, comprehension (vocab self) (simple_tokenizer text) = Ok raw)
        as [raw ->].
      { destruct Hseq as [[u Hu]| ->]; [|by eexists].
        rewrite (comprehension_unk _ _ u Hu). by eexists. }
      csimpl.
      destruct (tensor_long (pad_sequence raw (max_len self)))
        as [input_ids|e] eqn:Hids.
      * csimpl. destruct (tensor_long_label label_item) as [z|e] eqn:Hz.
        -- exfalso. apply Hlab. exists z. by apply tensor_long_label_Ok.
        -- by destruct (tensor_long_label_error _ _ Hz) as [-> _].
      * by rewrite (tensor_long_error _ _ Hids).
    + intros e.
      destruct (vocab self !! "<unk>") as [u|] eqn:Hu.
      * rewrite (comprehension_unk _ _ u Hu). csimpl.
        destruct (tensor_long _) as [input_ids|e'] eqn:Hids; csimpl.
        -- destruct (tensor_long_label label_item) as [z|e''] eqn:Hz; [done|].
           csimpl. intros [= <-]. right.
           by destruct (tensor_long_label_error _ _ Hz).
        -- intros [= <-]. right. by eapply tensor_long_error.
      * destruct (simple_tokenizer text) as [|t tokens] eqn:Htok.
        -- csimpl.
           destruct (tensor_long _) as [input_ids|e'] eqn:Hids; csimpl.
           ++ destruct (tensor_long_label label_item) as [z|e''] eqn:Hz; [done|].
              csimpl. intros [= <-]. right.
              by destruct (tensor_long_label_error _ _ Hz).
           ++ intros [= <-]. right. by eapply tensor_long_error.
        -- rewrite comprehension_KeyError by done. csimpl.
           intros [= <-]. by left.
Qed.

Lemma dataset_getitem_errors_witness :
  dataset_getitem
    {| texts := PyList ["Hello world"; "bye"]; labels := PyList [Some 1];
       vocab := example_vocab; max_len := 3 |} 1
  = Raise IndexError.
Proof.
  apply (dataset_getitem_errors
    {| texts := PyList ["Hello world"; "bye"]; labels := PyList [Some 1];
       vocab := example_vocab; max_len := 3 |} 1).
  right. right. vm_compute. discriminate.
Defined.

(** A missing label, as the label mapping leaves it, makes the retrieval
    raise. *)
Example dataset_getitem_missing_label :
  dataset_getitem
    {| texts := PyList ["Hello world"]; labels := PyList [None];
       vocab := example_vocab; max_len := 3 |} 0
  = Raise ConversionError.
Proof. vm_compute. reflexivity. Qed.

(** ** Resuming and lengths of the training loop *)

Section train_more.
Context `{Framework}.

(** A round does not read the histories: it appends to them. *)
Lemma epoch_prefix (train_loader val_loader : DataLoader) (st : State)
    (train_losses val_losses : list float) :
  epoch train_loader val_loader (st, train_losses, val_losses)
  = ('(st', tl, vl) ← epoch train_loader val_loader (st, [], []) ;
     Ok (st', train_losses ++ tl, val_losses ++ vl)).
Proof.
  unfold epoch.
  destruct (loader_iter train_loader (model_train st)) as [tb st1].
  destruct (foldl train_batch (st1, 0%float) tb) as [st2 train_loss].
  destruct (truediv train_loss (loader_len train_loader)) as [a|e]; [|done].
  csimpl.
  destruct (loader_iter val_loader (no_grad_enter (model_eval st2))) as [vb st3].
  destruct (foldl val_batch (st3, 0%float) vb) as [st4 val_loss].
  by destruct (truediv val_loss (loader_len val_loader)) as [b|e].
Qed.

Lemma epoch_Ok_inv (train_loader val_loader : DataLoader) (st st' : State)
    (train_losses val_losses tl vl : list float) :
  epoch train_loader val_loader (st, train_losses, val_losses)
  = Ok (st', tl, vl) →
  ∃ a b, tl = train_losses ++ [a] ∧ vl = val_losses ++ [b].
Proof.
  unfold epoch.
  destruct (loader_iter train_loader (model_train st)) as [tb st1].
  destruct (foldl train_batch (st1, 0%float) tb) as [st2 train_loss].
  destruct (truediv train_loss (loader_len train_loader)) as [a|e]; [|done].
  csimpl.
  destruct (loader_iter val_loader (no_grad_enter (model_eval st2))) as [vb st3].
  destruct (foldl val_batch (st3, 0%float) vb) as [st4 val_loss].
  destruct (truediv val_loss (loader_len val_loader)) as [b|e]; [|done].
  csimpl. intros [= _ <- <-]. by exists a, b.
Qed.

Lemma for_range_prefix (n : nat) (train_loader val_loader : DataLoader)
    (st : State) (train_losses val_losses : list float) :
  for_range n train_loader val_loader (st, train_losses, val_losses)
  = ('(st', tl, vl) ← for_range n train_loader val_loader (st, [], []) ;
     Ok (st', train_losses ++ tl, val_losses ++ vl)).
Proof.
  revert st train_losses val_losses.
  induction n as [|n IH]; intros st train_losses val_losses.
  - simpl. by rewrite !app_nil_r.
  - rewrite !for_range_S, epoch_prefix.
    destruct (epoch train_loader val_loader (st, [], []))
      as [[[st1 a] b]|e]; [|done].
    csimpl. rewrite IH, (IH st1 a b).
    destruct (for_range n train_loader val_loader (st1, [], []))
      as [[[st2 a'] b']|e]; [|done].
    csimpl. by rewrite !app_assoc.
Qed.

Lemma for_range_add (n m : nat) (train_loader val_loader : DataLoader)
    (acc : State * list float * list float) :
  for_range (n + m) train_loader val_loader acc
  = (acc' ← for_range n train_loader val_loader acc ;
     for_range m train_loader val_loader acc').
Proof.
  revert acc. induction n as [|n IH]; intros acc; [done|].
  change (S n + m)%nat with (S (n + m)). rewrite !for_range_S.
  destruct (epoch train_loader val_loader acc) as [acc1|e]; [|done].
  csimpl. apply IH.
Qed.

Lemma for_range_lengths (n : nat) (train_loader val_loader : DataLoader)
    (st st' : State) (train_losses val_losses tl vl : list float) :
  for_range n train_loader val_loader (st, train_losses, val_losses)
  = Ok (st', tl, vl) →
  length tl = (length train_losses + n)%nat
  ∧ length vl = (length val_losses + n)%nat.
Proof.
  revert st train_losses val_losses.
  induction n as [|n IH]; intros st train_losses val_losses.
  - intros [= _ <- <-]. lia.
  - rewrite for_range_S.
    destruct (epoch train_loader val_loader (st, train_losses, val_losses))
      as [[[st1 a] b]|e] eqn:He; [|done].
    csimpl. intros Hrest.
    destruct (epoch_Ok_inv _ _ _ _ _ _ _ _ He) as (x & y & -> & ->).
    apply IH in Hrest. rewrite !length_app in Hrest. simpl in Hrest. lia.
Qed.

(** X15. Training can be resumed: for [e1, e2 >= 0], training for
    [e1 + e2] epochs is training for [e1] epochs and then for [e2] more from
    the state reached, the histories of the second run appended to those of
    the first; an exception of either run is the exception of the whole. *)
Theorem train_model_resume (st : State) (train_loader val_loader : DataLoader)
    (e1 e2 : Z) :
  0 ≤ e1 → 0 ≤ e2 →
  train_model st train_loader val_loader (e1 + e2)
  = ('(tl1, vl1, st1) ← train_model st train_loader val_loader e1 ;
     '(tl2, vl2, st2) ← train_model st1 train_loader val_loader e2 ;
     Ok (tl1 ++ tl2, vl1 ++ vl2, st2)).
Proof.
  intros H1 H2. unfold train_model.
  rewrite Z2Nat.inj_add, for_range_add by done.
  destruct (for_range (Z.to_nat e1) train_loader val_loader (st, [], []))
    as [[[st1 tl1] vl1]|e]; [|done].
  csimpl. rewrite for_range_prefix.
  destruct (for_range (Z.to_nat e2) train_loader val_loader (st1, [], []))
    as [[[st2 tl2] vl2]|e]; done.
Qed.

(** X16. Whenever [train_model] returns, the two histories have the same
    length, [max(0, epochs)], whatever the loaders announce or yield. *)
Theorem train_model_lengths (st st' : State)
    (train_loader val_loader : DataLoader) (epochs : Z)
    (train_losses val_losses : list float) :
  train_model st train_loader val_loader epochs
  = Ok (train_losses, val_losses, st') →
  len train_losses = Z.max 0 epochs ∧ len val_losses = Z.max 0 epochs.
Proof.
  unfold train_model.
  destruct (for_range (Z.to_nat epochs) train_loader val_loader (st, [], []))
    as [[[st1 tl] vl]|e] eqn:Hrun; [|done].
  csimpl. intros [= <- <- _].
  apply for_range_lengths in Hrun. unfold len. simpl in Hrun. lia.
Qed.

(** X17. The number of predictions. If the model returns one row of logits
    per input row, then whenever the prediction loop returns, it returns as
    many labels as there are rows in the batches of the loader; and the
    only exception of the loop is the [IndexError] of [argmax] on a row
    without logits. *)
Theorem predict_count (st : State) (test_loader : DataLoader) :
  (∀ st input_ids, length (model_call st input_ids).1 = length input_ids) →
  let batches :=
    (loader_iter test_loader (no_grad_enter (model_eval st))).1 in
  (∀ all_preds st',
     predict st test_loader = Ok (all_preds, st') →
     length all_preds = sum_list ((λ batch, length batch.1) <$> batches))
  ∧ (∀ e, predict st test_loader = Raise e → e = IndexError).
Proof.
  intros Hshape batches. subst batches.
  assert (Hrows : ∀ outputs preds,
            argmax_dim1 outputs = Ok preds → length preds = length outputs).
  { induction outputs as [|row outputs IH]; intros preds; simpl.
    - by intros [= <-].
    - destruct (argmax row) as [p|e]; [|done]. csimpl.
      destruct (argmax_dim1 outputs) as [ps|e]; [|done]. csimpl.
      intros [= <-]. simpl. by rewrite (IH ps). }
  assert (Hrows_err : ∀ outputs e, argmax_dim1 outputs = Raise e → e = IndexError).
  { induction outputs as [|row outputs IH]; intros e; simpl; [done|].
    destruct row as [|x row]; [by intros [= <-]|]. csimpl.
    destruct (argmax_dim1 outputs) as [ps|e']; [done|]. csimpl.
    intros [= <-]. by apply IH. }
  assert (Hloop : ∀ batches st0 acc,
    (∀ st1 all_preds, predict_batches batches (st0, acc) = Ok (st1, all_preds) →
       length all_preds
       = (length acc + sum_list ((λ batch, length batch.1) <$> batches))%nat)
    ∧ (∀ e, predict_batches batches (st0, acc) = Raise e → e = IndexError)).
  { induction batches as [|[ids labs] batches IH]; intros st0 acc.
    - split; [|done]. intros st1 all_preds [= _ <-]. simpl. lia.
    - cbn [predict_batches predict_batch].
      pose proof (Hshape st0 ids) as Hlen.
      destruct (model_call st0 ids) as [outputs st1]. simpl in Hlen.
      destruct (argmax_dim1 outputs) as [ps|e] eqn:Hps.
      + csimpl. destruct (IH st1 (acc ++ ps)) as [IHok IHerr].
        split; [|exact IHerr]. intros st2 all_preds Hrun.
        rewrite (IHok _ _ Hrun), length_app, (Hrows _ _ Hps), Hlen. lia.
      + csimpl. split; [done|]. intros e' [= <-]. by eapply Hrows_err. }
  unfold predict.
  destruct (loader_iter test_loader (no_grad_enter (model_eval st)))
    as [batches st0]. simpl.
  destruct (Hloop batches st0 []) as [Hok Herr].
  destruct (predict_batches batches (st0, [])) as [[st1 ps]|e]; csimpl.
  - split; [|done]. intros all_preds st' [= <- _]. by rewrite (Hok st1 ps).
  - split; [done|]. intros e' [= <-]. by apply Herr.
Qed.

End train_more.

Lemma train_model_resume_witness :
  train_model (H := counting) 0
    (fixed_loader [([[2; 3]], [1])]) (fixed_loader [([[2; 1]], [0])]) (1 + 1)
  = ('(tl1, vl1, st1) ← train_model (H := counting) 0
        (fixed_loader [([[2; 3]], [1])]) (fixed_loader [([[2; 1]], [0])]) 1 ;
     '(tl2, vl2, st2) ← train_model (H := counting) st1
        (fixed_loader [([[2; 3]], [1])]) (fixed_loader [([[2; 1]], [0])]) 1 ;
     Ok (tl1 ++ tl2, vl1 ++ vl2, st2)).
Proof. apply (train_model_resume (H := counting)); lia. Defined.

Lemma train_model_lengths_witness :
  len [2%float; 2%float] = Z.max 0 2 ∧ len [1%float; 1%float] = Z.max 0 2.
Proof.
  apply (train_model_lengths (H := counting) 0 6
           (fixed_loader [([[2; 3]], [1])]) (fixed_loader [([[2; 1]], [0])]) 2).
  reflexivity.
Defined.

Lemma predict_count_witness :
  length [0; 0; 0; 1]
  = sum_list ((λ batch : list (list Z) * list Z, length batch.1)
                <$> [([[2; 3]; [4; 5]; [1; 3]], [1; 0; 0]); ([[1; 1]], [0])]).
Proof.
  destruct (predict_count (H := counting) 4
    (fixed_loader [([[2; 3]; [4; 5]; [1; 3]], [1; 0; 0]); ([[1; 1]], [0])]))
    as [Hcount _].
  - intros st ids. simpl. by rewrite length_fmap.
  - apply (Hcount [0; 0; 0; 1] 4). reflexivity.
Defined.

(** ** Labels and accuracy *)

Lemma label_mapping_lookup (s : string) :
  label_mapping !! s
  = if decide (s = "INFORMATIVE") then Some 1
    else if decide (s = "UNINFORMATIVE") then Some 0 else None.
Proof.
  unfold label_mapping. rewrite !lookup_insert, lookup_empty.
  repeat case_decide; congruence.
Qed.

Lemma reverse_label_mapping_lookup (i : Z) :
  reverse_label_mapping !! i
  = if decide (i = 1) then Some "INFORMATIVE"
    else if decide (i = 0) then Some "UNINFORMATIVE" else None.
Proof.
  unfold reverse_label_mapping. rewrite !lookup_insert, lookup_empty.
  repeat case_decide; congruence.
Qed.

(** X18. The two label mappings are inverse of each other on the two
    labels. Mapping a column of label strings to integers and back gives
    each of the two label strings back and turns every other cell into the
    missing value; the integer column holds 0, 1 or the missing value only;
    and every prediction that is 0 or 1 is mapped to its label string,
    never to the missing value. *)
Theorem label_mapping_round_trip (column : list (option string))
    (preds : list Z) :
  series_map reverse_label_mapping (series_map label_mapping column)
  = (λ cell, cell ≫= λ s,
       if decide (s = "UNINFORMATIVE" ∨ s = "INFORMATIVE") then Some s
       else None) <$> column
  ∧ Forall (λ cell, cell = None ∨ cell = Some 0 ∨ cell = Some 1)
           (series_map label_mapping column)
  ∧ (Forall (λ p, p = 0 ∨ p = 1) preds →
     series_map reverse_label_mapping (Some <$> preds)
     = (λ p, Some (if decide (p = 1) then "INFORMATIVE" else "UNINFORMATIVE"))
         <$> preds).
Proof.
  unfold series_map. split_and!.
  - rewrite <- list_fmap_compose. apply list_fmap_ext. intros _ [s|] _; [|done].
    simpl. rewrite label_mapping_lookup.
    destruct (decide (s = "INFORMATIVE")) as [->|Hi].
    { simpl. rewrite reverse_label_mapping_lookup. done. }
    destruct (decide (s = "UNINFORMATIVE")) as [->|Hu].
    { simpl. rewrite reverse_label_mapping_lookup. done. }
    simpl. rewrite decide_False; [done|]. tauto.
  - apply Forall_fmap, Forall_forall. intros [s|] _; simpl; [|by left].
    rewrite label_mapping_lookup. repeat case_decide; tauto.
  - intros Hpreds. rewrite <- list_fmap_compose.
    apply Forall_fmap_ext_1. eapply Forall_impl; [exact Hpreds|].
    intros p [->| ->]; simpl; by rewrite reverse_label_mapping_lookup.
Qed.

Lemma different_rows_bounds (frame : list (option string * option string)) :
  0 ≤ different_rows frame ≤ len frame.
Proof.
  unfold different_rows, len.
  pose proof (length_filter (λ row : option string * option string,
                               cell_ne row.1 row.2 = true) frame).
  lia.
Qed.

Lemma cell_ne_false (a b : option string) :
  cell_ne a b ≠ true ↔ ∃ s, a = Some s ∧ b = Some s.
Proof.
  destruct a as [x|], b as [y|]; simpl.
  - rewrite bool_decide_eq_true. split.
    + intros Hne. exists x. split; [done|].
      destruct (decide (x = y)) as [->|?]; [done|tauto].
    + intros (s & [= ->] & [= ->]) Hne. done.
  - split; [done|]. by intros (s & _ & ?).
  - split; [done|]. by intros (s & ? & _).
  - split; [done|]. by intros (s & ? & _).
Qed.

(** X19. The count of the accuracy cell. The number of differing rows lies
    between 0 and the number of rows; it is 0 exactly when every row holds
    the same label string in both cells, so a row with a missing label
    always counts as differing. The accuracy raises [ZeroDivisionError] on
    a frame without rows, and only then. *)
Theorem accuracy_counts (frame : list (option string * option string)) :
  0 ≤ different_rows frame ≤ len frame
  ∧ (different_rows frame = 0
     ↔ Forall (λ row, ∃ s, row.1 = Some s ∧ row.2 = Some s) frame)
  ∧ (accuracy frame = Raise ZeroDivisionError ↔ frame = [])
  ∧ (∀ e, accuracy frame = Raise e → e = ZeroDivisionError).
Proof.
  split; [apply different_rows_bounds|]. split; [|split].
  - unfold different_rows, len. induction frame as [|row frame IH].
    + split; [constructor|done].
    + rewrite Forall_cons, <- IH, <- cell_ne_false.
      destruct (decide (cell_ne row.1 row.2 = true)) as [Hne|Hne].
      * rewrite filter_cons_True by done. simpl. split; [lia|tauto].
      * rewrite filter_cons_False by done. tauto.
  - destruct frame as [|row frame].
    + split; reflexivity.
    + unfold accuracy, len. cbn [length].
      rewrite (proj2 (Z.eqb_neq _ 0)) by lia. split; discriminate.
  - unfold accuracy. destruct (len frame =? 0); [|done]. by intros e [= <-].
Qed.

(** ** Counting one token, letter case, and shorter lengths *)

(** X20. Counting one token adds 1 to the count of that token and changes
    no other count; a token already counted keeps its place among the keys
    and a new token becomes the last key. *)
Theorem count_token_effect (word_counts : list (string * Z)) (token : string) :
  (∀ t, counts_get (count_token word_counts token) t 0
        = counts_get word_counts t 0 + (if decide (token = t) then 1 else 0))
  ∧ (count_token word_counts token).*1
    = word_counts.*1 ++ (if decide (token ∈ word_counts.*1) then [] else [token]).
Proof.
  unfold count_token. split.
  - intros t. rewrite counts_get_set.
    destruct (decide (token = t)) as [->|?]; lia.
  - destruct (decide (token ∈ word_counts.*1)) as [Hin|Hin].
    + rewrite counts_set_keys_in by done. by rewrite app_nil_r.
    + by rewrite counts_set_keys_new.
Qed.

Lemma simple_tokenizer_lower (text : string) :
  simple_tokenizer (lower text) = simple_tokenizer text.
Proof. unfold simple_tokenizer. by rewrite lower_idemp. Qed.

(** X21. Letter case does not matter: lowercasing the texts beforehand
    changes neither the vocabulary that [build_vocab] returns nor the
    sequence that [text_to_sequence] returns. *)
Theorem build_vocab_case_insensitive (texts : list string) (min_freq : Z)
    (text : string) (vocab : gmap string Z) :
  build_vocab (lower <$> texts) min_freq = build_vocab texts min_freq
  ∧ text_to_sequence (lower text) vocab = text_to_sequence text vocab.
Proof.
  split.
  - unfold build_vocab. f_equal. unfold count_words.
    generalize (@nil (string * Z)) as wc.
    induction texts as [|t texts IH]; intros wc; csimpl; [done|].
    rewrite IH. f_equal. unfold count_text. by rewrite simple_tokenizer_lower.
  - unfold text_to_sequence. by rewrite simple_tokenizer_lower.
Qed.

(** X22. Padding to a shorter length is cutting the longer padding: for
    [0 <= n <= m], the first [n] entries of a sequence padded to [m] are
    the sequence padded to [n]. *)
Theorem pad_sequence_prefix (sequence : list Z) (n m : Z) :
  0 ≤ n → n ≤ m →
  take (Z.to_nat n) (pad_sequence sequence m) = pad_sequence sequence n.
Proof.
  intros H0 Hnm. pose proof (pad_sequence_length sequence n H0) as Hlen.
  destruct (Z_lt_le_dec (len sequence) m) as [Hm|Hm].
  - rewrite (pad_sequence_short _ m) by done.
    destruct (Z_lt_le_dec (len sequence) n) as [Hn|Hn].
    + rewrite (pad_sequence_short _ n) by done. unfold len in *.
      rewrite take_app_ge by lia. f_equal.
      rewrite take_replicate. f_equal. lia.
    + rewrite (pad_sequence_long _ n) by done. unfold len in *.
      by rewrite take_app_le by lia.
  - rewrite (pad_sequence_long _ m), (pad_sequence_long _ n) by lia.
    rewrite take_take. f_equal. lia.
Qed.

Lemma pad_sequence_prefix_witness :
  take (Z.to_nat 2) (pad_sequence [2; 1; 3] 5) = pad_sequence [2; 1; 3] 2.
Proof. apply (pad_sequence_prefix [2; 1; 3] 2 5); lia. Defined.
